(** * The local JSON database of [src/database/firebase.js]

    A shallow embedding of the storage engine (table cache, debounced
    write-back, forced flush) and of the balance functions of the
    [Database] object that sits on top of it, followed by the properties
    the specification states about them.

    Modelling conventions.
    - A JavaScript value is a term of [value].  Numbers are the integers
      (balances, counters and time stamps in this program); the
      arithmetic of the program is that of doubles, which agrees with
      the one of the integers up to [2^53] ([JS.exact]).  Fractions,
      [NaN] and the infinities are not values of the model.
    - A table and a record are plain objects used as dictionaries: a
      [gmap] from the names of their own properties to values.  Reading
      a key that is not a literal of the program, [db[key]], also finds
      what every object inherits from [Object.prototype] ([JS.index]);
      reading a field by its literal name does not, as the program reads
      no field under such a name.  An assignment under the name
      [__proto__], which sets the prototype instead of a property, is
      not modelled, and the functions of [Object.prototype] are opaque.
    - [cache] and [writeQueues] are read under the name of a table,
      which is taken not to be the name of a member of
      [Object.prototype], as none of the names that [Database] uses is;
      [loadTable_raw] is [loadTable] without that proviso, and for a
      file that holds any JSON document.
    - [writeQueues], whose keys [flushAll] enumerates, keeps the order in
      which they were created ([dict]).  The entries of a table are
      enumerated in the order of the map; what is proved about an
      enumeration of a table is proved for every order.
    - A file holds the text of a JSON object, or text that does not
      parse, which is also what a write that fails half-way leaves; the
      text is kept up to its layout.
    - The module state ([cache], [writeQueues]), the disk and the timers of
      the event loop are fields of one [store] that every function threads.
    - Time is a logical clock; the only suspension points are timer
      callbacks, which run between two calls of the API. *)

From Stdlib Require Import Ascii String.
From stdpp Require Import gmap strings list fin_maps pretty sorting.

Set Warnings "-register-all".

(* ------------------------------------------------------------------ *)
(** ** JavaScript values *)

(** [VFun k] is the built-in function that every object inherits under
    the name [k] ([VFun "constructor"] is [Object]); the program holds no
    other function. *)
Inductive value :=
| VUndef
| VNull
| VBool (b : bool)
| VNum (n : Z)
| VStr (s : string)
| VArr (l : list value)
| VObj (m : gmap string value)
| VFun (k : string).

Module JS.

(** ToBoolean: [undefined], [null], [false], [0] and the empty string are
    falsy, everything else (objects and arrays included) is truthy. *)
Definition truthy (v : value) : bool :=
  match v with
  | VUndef | VNull | VBool false | VNum 0 | VStr EmptyString => false
  | _ => true
  end.

(** [a || b] *)
Definition or (a b : value) : value := if truthy a then a else b.

(** [a ?? b] *)
Definition nullish (a b : value) : value :=
  match a with
  | VUndef | VNull => b
  | _ => a
  end.

(** [typeof v === 'object' && v !== null && !Array.isArray(v)] *)
Definition is_plain_object (v : value) : bool :=
  match v with
  | VObj _ => true
  | _ => false
  end.

(** The own property [k] of a dictionary, or [undefined]. *)
Definition prop (o : gmap string value) (k : string) : value :=
  default VUndef (o !! k).

(** The names of the functions that every object inherits from
    [Object.prototype]. *)
Definition prototype_functions : list string :=
  ["constructor"; "__defineGetter__"; "__defineSetter__"; "hasOwnProperty";
   "__lookupGetter__"; "__lookupSetter__"; "isPrototypeOf";
   "propertyIsEnumerable"; "toString"; "valueOf"; "toLocaleString"].

(** What [o[k]] finds on the prototype of a plain object [o] that has no
    property [k] of its own: one of the eleven functions, under
    [__proto__] the prototype itself, which has no enumerable property
    and reads as an empty object, and [undefined] under any other name. *)
Definition inherited (k : string) : value :=
  if bool_decide (k ∈ prototype_functions) then VFun k
  else if bool_decide (k = "__proto__") then VObj ∅
  else VUndef.

(** [o[k]] on a dictionary, for any string [k]: the own property, or else
    the inherited one. *)
Definition index (o : gmap string value) (k : string) : value :=
  match o !! k with
  | Some v => v
  | None => inherited k
  end.

(** [v.k] on a value that is not [null] or [undefined], for a name [k]
    that is not built in ([length], an index, a member of a prototype):
    only objects have it. *)
Definition field (v : value) (k : string) : value :=
  match v with
  | VObj m => prop m k
  | _ => VUndef
  end.

Fixpoint chars (s : string) : list value :=
  match s with
  | EmptyString => []
  | String c s' => VStr (String c EmptyString) :: chars s'
  end.

Definition indexed (l : list value) : gmap string value :=
  list_to_map (imap (λ i x, (pretty i, x)) l).

(** The own enumerable properties that a spread [...v] copies: the fields
    of an object, the elements of an array and the characters of a string
    under their indices, nothing for the other values. *)
Definition own_props (v : value) : gmap string value :=
  match v with
  | VObj m => m
  | VArr l => indexed l
  | VStr s => indexed (chars s)
  | _ => ∅
  end.

(** [{ ...a, ...b }]: the properties of [a], overwritten and extended by
    those of [b]. *)
Definition spread2 (a b : value) : value :=
  VObj (own_props b ∪ own_props a).

(** [a + b] and [a - b] on numbers.  [None] stands for the results that
    leave the integers (string concatenation, [NaN]).  The result is the
    one of the program where its operands and itself are [exact]; beyond,
    a double rounds. *)
Definition plus (a b : value) : option value :=
  match a, b with
  | VNum x, VNum y => Some (VNum (x + y))
  | _, _ => None
  end.

Definition minus (a b : value) : option value :=
  match a, b with
  | VNum x, VNum y => Some (VNum (x - y))
  | _, _ => None
  end.

(** An integer that a double holds, as it holds every integer between
    that one and 0. *)
Definition exact (z : Z) : Prop := (Z.abs z ≤ 2 ^ 53)%Z.

(** [Math.max(0, v)] on a number. *)
Definition max0 (v : value) : option Z :=
  match v with
  | VNum x => Some (Z.max 0 x)
  | _ => None
  end.

(** *** Lists, strings and comparisons of the [Database] functions

    In the functions below [None] stands for a call that throws a
    TypeError, or whose result is not a value of the model: the identity
    of objects is not modelled, so two objects are never compared. *)

Definition is_primitive (v : value) : bool :=
  match v with
  | VArr _ | VObj _ | VFun _ => false
  | _ => true
  end.

Definition prim_eqb (a b : value) : bool :=
  match a, b with
  | VUndef, VUndef | VNull, VNull => true
  | VBool x, VBool y => bool_decide (x = y)
  | VNum x, VNum y => bool_decide (x = y)
  | VStr x, VStr y => bool_decide (x = y)
  | _, _ => false
  end.

(** [a === b], which is also the equality of the elements of a [Set]. *)
Definition strict_eq (a b : value) : option bool :=
  if is_primitive a || is_primitive b then Some (prim_eqb a b) else None.

(** [v === s] for a string [s]. *)
Definition eq_string (v : value) (s : string) : bool := prim_eqb v (VStr s).

(** [[...v]]: the elements of an array, the characters of a string; the
    other values are not iterable. *)
Definition iterate (v : value) : option (list value) :=
  match v with
  | VArr l => Some l
  | VStr s => Some (chars s)
  | _ => None
  end.

(** The receiver of [v.filter(...)]: only an array has the method. *)
Definition as_array (v : value) : option (list value) :=
  match v with
  | VArr l => Some l
  | _ => None
  end.

(** Arrays and strings, whose elements a spread copies under their
    indices. *)
Definition has_indices (v : value) : bool :=
  match v with
  | VArr _ | VStr _ => true
  | _ => false
  end.

(** [s.includes(c)] for a character [c]. *)
Fixpoint includes (c : ascii) (s : string) : bool :=
  match s with
  | EmptyString => false
  | String x s => Ascii.eqb x c || includes c s
  end.

(** [seen.has(x)] *)
Fixpoint has (x : value) (seen : list value) : option bool :=
  match seen with
  | [] => Some false
  | y :: seen =>
    b ← strict_eq y x;
    if b : bool then Some true else has x seen
  end.

(** [[...new Set(l)]]: the elements of [l] in order, each kept the first
    time it is met. *)
Fixpoint add_all (seen l : list value) : option (list value) :=
  match l with
  | [] => Some seen
  | x :: l =>
    b ← has x seen;
    add_all (if b : bool then seen else seen ++ [x]) l
  end.

Definition from_Set (l : list value) : option (list value) := add_all [] l.

(** [v || 0] as a number. *)
Definition number_or_zero (v : value) : option Z :=
  match or v (VNum 0) with
  | VNum z => Some z
  | _ => None
  end.

(** [l.sort((a, b) => key(b) - key(a))]: the sort is stable, so an element
    goes behind those already placed whose key is not smaller. *)
Fixpoint insert_desc (x : Z * value) (l : list (Z * value)) : list (Z * value) :=
  match l with
  | [] => [x]
  | y :: l => if decide (y.1 < x.1)%Z then x :: y :: l else y :: insert_desc x l
  end.

Definition sort_desc (l : list (Z * value)) : list (Z * value) :=
  foldl (λ acc x, insert_desc x acc) [] l.

(** The character class [[a-zA-Z0-9_]]. *)
Definition is_word_char (c : ascii) : bool :=
  let n := nat_of_ascii c in
  (97 <=? n) && (n <=? 122) || (65 <=? n) && (n <=? 90)
  || (48 <=? n) && (n <=? 57) || (n =? 95).

(** [s.replace(/[^a-zA-Z0-9_]/g, '_')] *)
Fixpoint replace_non_word (s : string) : string :=
  match s with
  | EmptyString => EmptyString
  | String c s => String (if is_word_char c then c else "_"%char) (replace_non_word s)
  end.

End JS.

(* ------------------------------------------------------------------ *)
(** ** JSON documents and the text of a file *)

Inductive json :=
| JNull
| JBool (b : bool)
| JNum (n : Z)
| JStr (s : string)
| JArr (l : list json)
| JObj (m : gmap string json).

(** What a table file holds, up to the layout of JSON text (indentation,
    order of the members): the text of a JSON object, given by the object
    it denotes, or text that is not JSON at all.  The store only ever
    writes the first kind; text of a JSON document that is not an object
    is outside the model. *)
Inductive content :=
| JsonObject (m : gmap string json)
| NotJson (s : string).

Module JSON.

(** SerializeJSONProperty: [None] when the value has no JSON text
    ([undefined], a function).  A member with such a value is left out of
    its object; in an array it is written as [null]. *)
Fixpoint serialize (v : value) : option json :=
  match v with
  | VUndef | VFun _ => None
  | VNull => Some JNull
  | VBool b => Some (JBool b)
  | VNum n => Some (JNum n)
  | VStr s => Some (JStr s)
  | VArr l => Some (JArr (map (λ x, default JNull (serialize x)) l))
  | VObj m => Some (JObj (omap serialize m))
  end.

Fixpoint revive (j : json) : value :=
  match j with
  | JNull => VNull
  | JBool b => VBool b
  | JNum n => VNum n
  | JStr s => VStr s
  | JArr l => VArr (map revive l)
  | JObj m => VObj (revive <$> m)
  end.

(** [JSON.stringify(db, null, 2)] of a table. *)
Definition stringify (db : gmap string value) : content :=
  JsonObject (omap serialize db).

(** [JSON.parse(text)]: [None] is the SyntaxError. *)
Definition parse (text : content) : option (gmap string value) :=
  match text with
  | JsonObject m => Some (revive <$> m)
  | NotJson _ => None
  end.

(** The text of a file in general: any JSON document, or text that is
    not JSON; [content] is the part of it that the store writes. *)
Inductive text :=
| Document (j : json)
| Malformed (s : string).

Definition of_content (c : content) : text :=
  match c with
  | JsonObject m => Document (JObj m)
  | NotJson s => Malformed s
  end.

Definition parse_text (t : text) : option value :=
  match t with
  | Document j => Some (revive j)
  | Malformed _ => None
  end.

End JSON.

(* ------------------------------------------------------------------ *)
(** ** POSIX [path.join] *)

Module path.

Definition sep : ascii := "/"%char.

(** [s.split('/')] *)
Fixpoint split (s : string) : list string :=
  match s with
  | EmptyString => [EmptyString]
  | String c s' =>
    if Ascii.eqb c sep then EmptyString :: split s'
    else match split s' with
         | seg :: segs => String c seg :: segs
         | [] => [String c EmptyString]
         end
  end.

Fixpoint has_sep (s : string) : bool :=
  match s with
  | EmptyString => false
  | String c s' => Ascii.eqb c sep || has_sep s'
  end.

(** One segment against the stack of segments kept so far (top first):
    empty and [.] segments vanish, [..] removes the segment before it, and
    is kept only where a relative path climbs above its start. *)
Definition push (aboveRoot : bool) (stack : list string) (seg : string)
  : list string :=
  if decide (seg = "" ∨ seg = ".") then stack
  else if decide (seg = "..") then
    match stack with
    | top :: below =>
      if decide (top = "..") then (if aboveRoot then seg :: stack else stack)
      else below
    | [] => if aboveRoot then [seg] else []
    end
  else seg :: stack.

Definition normalizeString (aboveRoot : bool) (segs : list string) : list string :=
  rev (foldl (push aboveRoot) [] segs).

Fixpoint unsplit (segs : list string) : string :=
  match segs with
  | [] => ""
  | [seg] => seg
  | seg :: rest => seg +:+ "/" +:+ unsplit rest
  end.

Definition ends_with_sep (p : string) : bool :=
  match last (String.list_ascii_of_string p) with
  | Some c => Ascii.eqb c sep
  | None => false
  end.

Definition starts_with_sep (p : string) : bool :=
  match p with
  | String c _ => Ascii.eqb c sep
  | EmptyString => false
  end.

Definition normalize (p : string) : string :=
  if decide (p = "") then "."
  else
    let isAbsolute := starts_with_sep p in
    let trailingSeparator := ends_with_sep p in
    let q := unsplit (normalizeString (negb isAbsolute) (split p)) in
    if decide (q = "") then
      (if isAbsolute then "/" else if trailingSeparator then "./" else ".")
    else
      let q := if trailingSeparator then q +:+ "/" else q in
      if isAbsolute then "/" +:+ q else q.

(** [path.join(...args)]: the non-empty arguments glued with [/], then
    normalised. *)
Definition join (args : list string) : string :=
  match filter (λ a, a ≠ "") args with
  | [] => "."
  | parts => normalize (unsplit parts)
  end.

End path.

(* ------------------------------------------------------------------ *)
(** ** Objects that are enumerated *)

(** The properties of a plain object in the order in which they were
    created: an assignment to a name that the object has keeps its
    place, one to a new name goes to the end.  This is [writeQueues], the
    object whose keys [flushAll] goes through. *)
Record dict (A : Type) := Dict { props : list (string * A) }.

Arguments Dict {A} props.
Arguments props {A} d.

Fixpoint assoc {A} (k : string) (l : list (string * A)) : option A :=
  match l with
  | [] => None
  | (k', v) :: l => if decide (k' = k) then Some v else assoc k l
  end.

Fixpoint assign {A} (k : string) (v : A) (l : list (string * A))
  : list (string * A) :=
  match l with
  | [] => [(k, v)]
  | (k', v') :: l =>
    if decide (k' = k) then (k', v) :: l else (k', v') :: assign k v l
  end.

Global Instance dict_empty {A} : Empty (dict A) := Dict [].

Global Instance dict_lookup {A} : Lookup string A (dict A) :=
  λ k o, assoc k (props o).

Global Instance dict_insert {A} : Insert string A (dict A) :=
  λ k v o, Dict (assign k v (props o)).

Global Instance dict_delete {A} : Delete string (dict A) :=
  λ k o, Dict (filter (λ e, e.1 ≠ k) (props o)).

Definition digit (c : ascii) : option N :=
  let n := N_of_ascii c in
  if ((48 <=? n) && (n <=? 57))%N then Some (n - 48)%N else None.

Fixpoint digits (acc : N) (s : string) : option N :=
  match s with
  | EmptyString => Some acc
  | String c s => d ← digit c; digits (10 * acc + d)%N s
  end.

(** The array index that a property name is, if it is one: the decimal
    numeral, without a leading zero, of an integer below [2^32 - 1]. *)
Definition array_index (k : string) : option N :=
  match k with
  | EmptyString => None
  | String c rest =>
    if Ascii.eqb c "0" && negb (String.eqb rest "") then None
    else n ← digits 0 k; if (n <? 4294967295)%N then Some n else None
  end.

Definition index_le (a b : N * string) : Prop := (a.1 ≤ b.1)%N.

Global Instance index_le_dec a b : Decision (index_le a b).
Proof. unfold index_le. apply _. Defined.

(** [Object.keys(o)]: the names that are array indices in ascending
    order, then the other names in the order of their creation. *)
Definition Object_keys {A} (o : dict A) : list string :=
  let names := (props o).*1 in
  (merge_sort index_le (omap (λ k, (λ n, (n, k)) <$> array_index k) names)).*2
  ++ filter (λ k, array_index k = None) names.

(* ------------------------------------------------------------------ *)
(** ** The store: module state, disk and event loop *)

(** An armed timeout.  Its callback is the closure of [saveTable], which
    captures nothing but the table name. *)
Record timer := Timer {
  timer_table : string;
  timer_due : nat;
}.

(** A call of [fs.writeFileSync], with the table whose mapping it wrote. *)
Record write := Write {
  write_table : string;
  write_file : string;
  write_data : content;
}.

Record store := Store {
  cache : gmap string (gmap string value);  (* const cache = {} *)
  writeQueues : dict nat;                   (* const writeQueues = {} *)
  files : gmap string content;              (* the disk, by path *)
  timers : gmap nat timer;                  (* armed timeouts, by handle *)
  next_handle : nat;                        (* handles are never reused *)
  now : nat;                                (* the clock *)
  writes : list write;                      (* every fs.writeFileSync call so far *)
}.

Definition with_cache (c : gmap string (gmap string value)) (st : store) : store :=
  Store c (writeQueues st) (files st) (timers st) (next_handle st) (now st) (writes st).

Definition with_writeQueues (q : dict nat) (st : store) : store :=
  Store (cache st) q (files st) (timers st) (next_handle st) (now st) (writes st).

Definition with_timers (t : gmap nat timer) (st : store) : store :=
  Store (cache st) (writeQueues st) (files st) t (next_handle st) (now st) (writes st).

Definition with_now (t : nat) (st : store) : store :=
  Store (cache st) (writeQueues st) (files st) (timers st) (next_handle st) t (writes st).

(** The module as first loaded, over a given disk. *)
Definition boot (disk : gmap string content) : store :=
  Store ∅ ∅ disk ∅ 0 0 [].

Definition clearTimeout (h : nat) (st : store) : store :=
  with_timers (delete h (timers st)) st.

Definition setTimeout (name : string) (delay : nat) (st : store) : nat * store :=
  let h := next_handle st in
  (h, Store (cache st) (writeQueues st) (files st)
            (<[h := Timer name (now st + delay)]> (timers st))
            (S h) (now st) (writes st)).

(** Timers fire by due time, and in the order they were armed when due
    together. *)
Definition fires_before (a b : nat * timer) : Prop :=
  timer_due a.2 < timer_due b.2 ∨ (timer_due a.2 = timer_due b.2 ∧ a.1 ≤ b.1).

Global Instance fires_before_dec a b : Decision (fires_before a b).
Proof. unfold fires_before. apply _. Defined.

Definition expired (t : nat) (st : store) : list nat :=
  (merge_sort fires_before
     (filter (λ a, timer_due a.2 ≤ t) (map_to_list (timers st)))).*1.

(** A place for the module and a disk on which no write fails, for the
    worked examples. *)
Definition example_dir : string := "/bot/src/database".

Definition no_faults : nat → bool := λ _, false.

Definition no_tears : nat → option content := λ _, None.

(** [toLowerCase] and [toUpperCase] on the letters of ASCII, and a clock
    that starts at 0, for the worked examples. *)
Fixpoint map_chars (f : ascii → ascii) (s : string) : string :=
  match s with
  | EmptyString => EmptyString
  | String c s => String (f c) (map_chars f s)
  end.

Definition ascii_toLowerCase : string → string :=
  map_chars (λ c, let n := nat_of_ascii c in
                  if (65 <=? n) && (n <=? 90) then ascii_of_nat (n + 32) else c).

Definition ascii_toUpperCase : string → string :=
  map_chars (λ c, let n := nat_of_ascii c in
                  if (97 <=? n) && (n <=? 122) then ascii_of_nat (n - 32) else c).

Definition example_started : Z := 0.

Section Store.

(** The directory of [firebase.js]. *)
Variable __dirname : string.

(** The faults of the disk: whether the [n]-th call of [fs.writeFileSync]
    (counted from 0 over the life of the process) throws, and what a
    call that throws leaves in the file: nothing new when the file could
    not be opened ([None]), and otherwise whatever was written before
    the fault, as the file is opened with the flag [w], which empties
    it.  That is in general a part of the text, which is not JSON, as no
    proper prefix of the text of an object is. *)
Variable write_fails : nat → bool.
Variable torn : nat → option content.

Definition DATA_DIR : string := path.join [__dirname; "../../data"].

Definition dbFile (name : string) : string :=
  path.join [DATA_DIR; name +:+ ".json"].

(** [fs.readFileSync(file, 'utf8')]: [None] when it throws. *)
Definition readFileSync (file : string) (st : store) : option content :=
  files st !! file.

(** [try { fs.writeFileSync(file, data) } catch {}]: a call that throws
    leaves the file as it was, or torn.  The table [name] is only noted
    in the log. *)
Definition writeFileSync (name file : string) (data : content) (st : store)
  : store :=
  let n := length (writes st) in
  Store (cache st) (writeQueues st)
        (if write_fails n
         then match torn n with
              | Some part => <[file := part]> (files st)
              | None => files st
              end
         else <[file := data]> (files st))
        (timers st) (next_handle st) (now st)
        (writes st ++ [Write name file data]).

Definition loadTable (name : string) (st : store) : gmap string value * store :=
  match cache st !! name with
  | Some db => (db, st)
  | None =>
    let db := default ∅ (readFileSync (dbFile name) st ≫= JSON.parse) in
    (db, with_cache (<[name := db]> (cache st)) st)
  end.

(** [loadTable] as it runs on any name and any file, which the types of
    the store leave out: [cache] is a plain object, so that [cache[name]]
    also finds what every object inherits, and the file may hold any JSON
    document.  The function cannot throw, as both calls that can are
    inside the [try]. *)
Definition loadTable_raw (name : string) (cache : gmap string value)
    (disk : gmap string JSON.text) : value * gmap string value :=
  if JS.truthy (JS.index cache name) then (JS.index cache name, cache)
  else
    let parsed := default (VObj ∅) (disk !! dbFile name ≫= JSON.parse_text) in
    let cache := <[name := parsed]> cache in
    (JS.index cache name, cache).

(** The callback that [saveTable] hands to [setTimeout]. *)
Definition write_back (name : string) (st : store) : store :=
  let st := writeFileSync name (dbFile name)
              (JSON.stringify (default ∅ (cache st !! name))) st in
  with_writeQueues (delete name (writeQueues st)) st.

Definition saveTable (name : string) (st : store) : store :=
  let st := match writeQueues st !! name with
            | Some h => clearTimeout h st
            | None => st
            end in
  let '(h, st) := setTimeout name 500 st in
  with_writeQueues (<[name := h]> (writeQueues st)) st.

Definition get (table key : string) (st : store) : value * store :=
  let '(db, st) := loadTable table st in
  (JS.nullish (JS.index db key) VNull, st).

(** [db] aliases [cache[table]]: the assignment to [db[key]] is an update
    of the cached table. *)
Definition set (table key : string) (v : value) (st : store) : store :=
  let '(db, st) := loadTable table st in
  let db :=
    if JS.is_plain_object v
    then <[key := JS.spread2 (JS.or (JS.index db key) (VObj ∅)) v]> db
    else <[key := v]> db in
  saveTable table (with_cache (<[table := db]> (cache st)) st).

Definition del (table key : string) (st : store) : store :=
  let '(db, st) := loadTable table st in
  let db := delete key db in
  saveTable table (with_cache (<[table := db]> (cache st)) st).

Definition getAll (table : string) (st : store) : gmap string value * store :=
  loadTable table st.

(** One turn of the loop of [flushAll]. *)
Definition flush (st : store) (name : string) : store :=
  let st := match writeQueues st !! name with
            | Some h => clearTimeout h st
            | None => st
            end in
  writeFileSync name (dbFile name)
    (JSON.stringify (default ∅ (cache st !! name))) st.

Definition flushTables (names : list string) (st : store) : store :=
  foldl flush st names.

Definition flushAll (st : store) : store :=
  flushTables (Object_keys (writeQueues st)) st.

(** *** The event loop *)

(** The timeout with handle [h] expires: it is disarmed and its callback
    runs. *)
Definition fire (st : store) (h : nat) : store :=
  match timers st !! h with
  | Some tm => write_back (timer_table tm) (clearTimeout h st)
  | None => st
  end.

(** [d] units of time pass with no call of the API: the timeouts due by
    then run, in order. *)
Definition elapse (d : nat) (st : store) : store :=
  let t := now st + d in
  with_now t (foldl fire st (expired t st)).

(** *** The balance functions of [Database] *)

Definition getBalance (jid : string) (st : store) : value * store :=
  let '(user, st) := get "users" jid st in
  (if JS.truthy user then JS.or (JS.field user "balance") (VNum 0) else VNum 0, st).

Definition addBalance (jid : string) (amount : value) (st : store) : option store :=
  let '(u, st) := get "users" jid st in
  let user := JS.or u (VObj {["balance" := VNum 0]}) in
  bal ← JS.plus (JS.or (JS.field user "balance") (VNum 0)) amount;
  Some (set "users" jid (VObj {["balance" := bal]}) st).

Definition removeBalance (jid : string) (amount : value) (st : store)
  : option (Z * store) :=
  let '(u, st) := get "users" jid st in
  let user := JS.or u (VObj {["balance" := VNum 0]}) in
  d ← JS.minus (JS.or (JS.field user "balance") (VNum 0)) amount;
  newBal ← JS.max0 d;
  Some (newBal, set "users" jid (VObj {["balance" := VNum newBal]}) st).

(** *** What the store presents *)

(** The mapping of a table as the API sees it: what [loadTable] returns. *)
Definition table (name : string) (st : store) : gmap string value :=
  (loadTable name st).1.

(** *** Runs of the program *)

(** What the host does with the module: calls of the four primitives and
    of [flushAll], and time that passes in between. *)
Inductive call :=
| Get (table key : string)
| Put (table key : string) (v : value)
| Del (table key : string)
| GetAll (table : string)
| FlushAll
| Elapse (d : nat).

Definition exec (st : store) (c : call) : store :=
  match c with
  | Get t k => (get t k st).2
  | Put t k v => set t k v st
  | Del t k => del t k st
  | GetAll t => (getAll t st).2
  | FlushAll => flushAll st
  | Elapse d => elapse d st
  end.

Definition run (calls : list call) (st : store) : store := foldl exec st calls.

(** A mutation of one table, and a burst of them: each further mutation
    comes [gap] units of time after the one before. *)
Inductive mutation :=
| Assign (key : string) (v : value)
| Remove (key : string).

Definition mutate (table : string) (mu : mutation) (st : store) : store :=
  match mu with
  | Assign k v => set table k v st
  | Remove k => del table k st
  end.

Fixpoint burst (table : string) (more : list (nat * mutation)) (st : store) : store :=
  match more with
  | [] => st
  | (gap, mu) :: more => burst table more (mutate table mu (elapse gap st))
  end.

(** The process ends and the module is loaded again over the same disk. *)
Definition restart (st : store) : store := boot (files st).

(** The armed timeouts whose callback writes the given table. *)
Definition pending (name : string) (st : store) : list (nat * timer) :=
  filter (λ a, timer_table a.2 = name) (map_to_list (timers st)).

(** The calls of [fs.writeFileSync] made for a table, among those of a
    log. *)
Definition writes_for (name : string) (log : list write) : list write :=
  filter (λ w, write_table w = name) log.

(** The bookkeeping of [saveTable]: the handle of every armed timeout is
    the one that the write queue has for its table, every handle in the
    queue was handed out by [setTimeout], and the queue has a name once,
    as an object does. *)
Definition queued (st : store) : Prop :=
  (∀ h tm, timers st !! h = Some tm → writeQueues st !! timer_table tm = Some h) ∧
  (∀ name h, writeQueues st !! name = Some h → h < next_handle st) ∧
  NoDup (props (writeQueues st)).*1.

(** Calls of the two functions that change a balance, and a run of them
    on one user. *)
Inductive balance_call :=
| AddBalance (amount : Z)
| RemoveBalance (amount : Z).

Definition balance_exec (jid : string) (st : option store) (c : balance_call)
  : option store :=
  st ≫= λ st,
    match c with
    | AddBalance a => addBalance jid (VNum a) st
    | RemoveBalance a => snd <$> removeBalance jid (VNum a) st
    end.

Definition balance_run (jid : string) (calls : list balance_call) (st : store)
  : option store :=
  foldl (balance_exec jid) (Some st) calls.

Definition adds_nonnegative (c : balance_call) : Prop :=
  match c with
  | AddBalance a => (0 ≤ a)%Z
  | RemoveBalance _ => True
  end.

(** The amount of a call, and the most that the call can add to a
    balance: [removeBalance] adds when its amount is negative.  A run is
    within the integers that doubles hold when its amounts are, and the
    balance, from [cur], cannot grow beyond them. *)
Definition amount_of (c : balance_call) : Z :=
  match c with
  | AddBalance a | RemoveBalance a => a
  end.

Definition credit (c : balance_call) : Z :=
  match c with
  | AddBalance a => a
  | RemoveBalance a => Z.max 0 (- a)
  end.

Definition exact_run (cur : Z) (calls : list balance_call) : Prop :=
  Forall (λ c, JS.exact (amount_of c)) calls ∧
  (cur + foldr Z.add 0 (credit <$> calls) ≤ 2 ^ 53)%Z.

(** The table [name] has the armed timeout [h], in a store that keeps
    its books. *)
Definition armed (name : string) (h : nat) (tm : timer) (st : store) : Prop :=
  queued st ∧ timers st !! h = Some tm ∧ timer_table tm = name.

(** The record that [set] leaves under [key], given the one found there. *)
Definition stored (found v : value) : value :=
  if JS.is_plain_object v then JS.spread2 (JS.or found (VObj ∅)) v else v.

(** *** Values that JSON text can hold *)

(** No [undefined] and no function anywhere inside. *)
Fixpoint storable (v : value) : bool :=
  match v with
  | VUndef | VFun _ => false
  | VArr l => forallb storable l
  | VObj m => bool_decide (map_Forall (λ _ (b : bool), b = true) (storable <$> m))
  | _ => true
  end.

Fixpoint vsize (v : value) : nat :=
  match v with
  | VArr l => S (list_sum (map vsize l))
  | VObj m => S (map_fold (λ _ x acc, vsize x + acc) 0 m)
  | _ => 1
  end.

Fixpoint jsize (j : json) : nat :=
  match j with
  | JArr l => S (list_sum (map jsize l))
  | JObj m => S (map_fold (λ _ x acc, jsize x + acc) 0 m)
  | _ => 1
  end.

(** *** The other functions of [Database] *)

Section Database.

(** [String.prototype.toLowerCase] and [toUpperCase], and the reading of
    [Date.now()] when the module is loaded. *)
Variable toLowerCase toUpperCase : string → string.
Variable started : Z.

(** [Date.now()] *)
Definition Date_now (st : store) : value := VNum (started + Z.of_nat (now st)).

(** [Object.entries(o)] and [Object.values(o)] of a table, in the order
    in which the map lists its keys.  The program has them in the order
    of creation of the keys: what depends on the order is stated for
    every enumeration, and nothing is said about which of two records
    of equal rank a sort puts first. *)
Definition Object_entries (o : gmap string value) : list (string * value) :=
  map_to_list o.

Definition Object_values (o : gmap string value) : list value :=
  (map_to_list o).*2.

Definition getUser (jid : string) (st : store) : value * store :=
  get "users" jid st.

Definition setUser (jid : string) (data : value) (st : store) : store :=
  set "users" jid data st.

Definition updateUser (jid : string) (data : value) (st : store) : store :=
  set "users" jid data st.

Definition getGroup (groupId : string) (st : store) : value * store :=
  let '(g, st) := get "groups" groupId st in
  (JS.or g (VObj ∅), st).

Definition setGroup (groupId : string) (data : value) (st : store) : store :=
  set "groups" groupId data st.

(** The key [`${groupId}_${jid}`] of the warns and of the activity. *)
Definition pair_key (groupId jid : string) : string :=
  groupId +:+ "_" +:+ jid.

Definition getWarns (jid groupId : string) (st : store) : value * store :=
  let '(data, st) := get "warns" (pair_key groupId jid) st in
  (if JS.truthy data then JS.or (JS.field data "warns") (VNum 0) else VNum 0, st).

Definition addWarn (jid groupId : string) (reason : value) (st : store)
  : option (value * store) :=
  let key := pair_key groupId jid in
  let '(d, st) := get "warns" key st in
  let data := JS.or d (VObj (<["warns" := VNum 0]> {["reasons" := VArr []]})) in
  warns ← JS.plus (JS.or (JS.field data "warns") (VNum 0)) (VNum 1);
  reasons ← JS.iterate (JS.or (JS.field data "reasons") (VArr []));
  Some (warns,
        set "warns" key
          (VObj (<["warns" := warns]> {["reasons" := VArr (reasons ++ [reason])]}))
          st).

Definition resetWarns (jid groupId : string) (st : store) : store :=
  del "warns" (pair_key groupId jid) st.

Definition isBanned (jid : string) (st : store) : bool * store :=
  let '(v, st) := get "banned" jid st in
  (negb (JS.prim_eqb v VNull), st).

Definition banUser (jid : string) (st : store) : store :=
  set "banned" jid (VObj (<["banned" := VBool true]> {["at" := Date_now st]})) st.

Definition unbanUser (jid : string) (st : store) : store :=
  del "banned" jid st.

Definition getBlacklist (groupId : string) (st : store) : value * store :=
  let '(data, st) := get "blacklist" groupId st in
  (if JS.truthy data then JS.or (JS.field data "words") (VArr []) else VArr [], st).

Definition addBlacklist (groupId word : string) (st : store) : option store :=
  let '(d, st) := get "blacklist" groupId st in
  let data := JS.or d (VObj {["words" := VArr []]}) in
  old ← JS.iterate (JS.or (JS.field data "words") (VArr []));
  words ← JS.from_Set (old ++ [VStr (toLowerCase word)]);
  Some (set "blacklist" groupId (VObj {["words" := VArr words]}) st).

Definition removeBlacklist (groupId word : string) (st : store) : option store :=
  let '(d, st) := get "blacklist" groupId st in
  let data := JS.or d (VObj {["words" := VArr []]}) in
  old ← JS.as_array (JS.or (JS.field data "words") (VArr []));
  Some (set "blacklist" groupId
          (VObj {["words" :=
                    VArr (filter (λ w, JS.eq_string w (toLowerCase word) = false) old)]})
          st).

Definition logActivity (jid groupId : string) (st : store) : option store :=
  let key := pair_key groupId jid in
  let '(d, st) := get "activity" key st in
  let data :=
    JS.or d (VObj (<["jid" := VStr jid]>
                     (<["groupId" := VStr groupId]> {["count" := VNum 0]}))) in
  count ← JS.plus (JS.or (JS.field data "count") (VNum 0)) (VNum 1);
  Some (set "activity" key
          (VObj (<["jid" := VStr jid]>
                   (<["groupId" := VStr groupId]>
                      (<["count" := count]> {["last" := Date_now st]}))))
          st).

(** [d.k] in a callback, where [d] may be any value of a table: reading a
    field of [null] or [undefined] throws. *)
Definition field_of (d : value) (k : string) : option value :=
  match d with
  | VNull | VUndef => None
  | _ => Some (JS.field d k)
  end.

(** [.filter(d => d.groupId === groupId)] *)
Fixpoint of_group (groupId : string) (l : list value) : option (list value) :=
  match l with
  | [] => Some []
  | d :: l =>
    g ← field_of d "groupId";
    rest ← of_group groupId l;
    Some (if JS.eq_string g groupId then d :: rest else rest)
  end.

(** The sort key [(d.k || 0)] of every element, for the comparator. *)
Definition keyed (k : string) (l : list value) : option (list (Z * value)) :=
  mapM (λ d, z ← JS.number_or_zero (JS.field d k); Some (z, d)) l.

(** [.sort((a, b) => (b.k || 0) - (a.k || 0)).slice(0, 10)] *)
Definition top_ten (k : string) (l : list value) : option (list value) :=
  kl ← keyed k l;
  Some (take 10 (JS.sort_desc kl).*2).

Definition groupActivity (groupId : string) (all : list value) : option (list value) :=
  of_group groupId all ≫= top_ten "count".

Definition getGroupActivity (groupId : string) (st : store)
  : option (list value) * store :=
  let '(all, st) := getAll "activity" st in
  (groupActivity groupId (Object_values all), st).

Definition setAFK (jid : string) (reason : value) (st : store) : store :=
  set "afk" jid (VObj (<["reason" := reason]> {["since" := Date_now st]})) st.

Definition getAFK (jid : string) (st : store) : value * store :=
  get "afk" jid st.

Definition removeAFK (jid : string) (st : store) : store :=
  del "afk" jid st.

Definition getCards (jid : string) (st : store) : value * store :=
  let '(data, st) := get "cards" jid st in
  (if JS.truthy data then JS.or (JS.field data "cards") (VArr []) else VArr [], st).

Definition addCard (jid : string) (card : value) (st : store) : option store :=
  let '(d, st) := get "cards" jid st in
  let data := JS.or d (VObj {["cards" := VArr []]}) in
  old ← JS.iterate (JS.or (JS.field data "cards") (VArr []));
  Some (set "cards" jid (VObj {["cards" := VArr (old ++ [card])]}) st).

(** [.map(([jid, u]) => ({ jid, ...u })).filter(u => u.registered)] *)
Definition registered_users (entries : list (string * value)) : list value :=
  filter (λ u, JS.truthy (JS.field u "registered") = true)
    (map (λ e, JS.spread2 (VObj {["jid" := VStr e.1]}) e.2) entries).

Definition richlist (entries : list (string * value)) : option (list value) :=
  top_ten "balance" (registered_users entries).

Definition getGlobalRichlist (st : store) : option (list value) * store :=
  let '(all, st) := getAll "users" st in
  (richlist (Object_entries all), st).

Definition getRichlist (groupId : string) (st : store)
  : option (list value) * store :=
  let '(all, st) := getAll "users" st in
  (richlist (Object_entries all), st).

Definition getStardust (jid : string) (st : store) : value * store :=
  let '(user, st) := get "users" jid st in
  (if JS.truthy user then JS.or (JS.field user "stardust") (VNum 0) else VNum 0, st).

Definition addStardust (jid : string) (amount : value) (st : store) : option store :=
  let '(u, st) := get "users" jid st in
  let user := JS.or u (VObj {["stardust" := VNum 0]}) in
  dust ← JS.plus (JS.or (JS.field user "stardust") (VNum 0)) amount;
  Some (set "users" jid (VObj {["stardust" := dust]}) st).

Definition setSpawn (spawnId : string) (data : value) (st : store) : store :=
  set "spawns" spawnId data st.

Definition getSpawn (spawnId : string) (st : store) : value * store :=
  get "spawns" spawnId st.

(** [.find(([, d]) => d.shortId === sid && !d.claimed)]: the outer option
    is the TypeError of an entry that is [null] or [undefined]. *)
Fixpoint find_open (sid : string) (entries : list (string * value))
  : option (option (string * value)) :=
  match entries with
  | [] => Some None
  | (k, d) :: entries =>
    s ← field_of d "shortId";
    if JS.eq_string s sid && negb (JS.truthy (JS.field d "claimed"))
    then Some (Some (k, d))
    else find_open sid entries
  end.

Definition spawnByShortId (shortId : string) (entries : list (string * value))
  : option value :=
  found ← find_open (toUpperCase shortId) entries;
  Some match found with
       | Some (k, d) => JS.spread2 (VObj {["id" := VStr k]}) d
       | None => VNull
       end.

Definition getSpawnByShortId (shortId : string) (st : store)
  : option value * store :=
  let '(all, st) := getAll "spawns" st in
  (spawnByShortId shortId (Object_entries all), st).

Definition claimSpawn (spawnDocId : string) (st : store) : store :=
  set "spawns" spawnDocId
    (VObj (<["claimed" := VBool true]> {["claimedAt" := Date_now st]})) st.

Definition getDailyCooldown (jid : string) (st : store) : value * store :=
  let '(data, st) := get "cooldowns" ("daily_" +:+ jid) st in
  (if JS.truthy data then JS.field data "timestamp" else VNum 0, st).

Definition setDailyCooldown (jid : string) (st : store) : store :=
  set "cooldowns" ("daily_" +:+ jid) (VObj {["timestamp" := Date_now st]}) st.

Definition getCooldown (key : string) (st : store) : value * store :=
  let safeKey := JS.replace_non_word key in
  let '(data, st) := get "cooldowns" safeKey st in
  (if JS.truthy data then JS.field data "timestamp" else VNum 0, st).

Definition setCooldown (key : string) (timestamp : value) (st : store) : store :=
  let safeKey := JS.replace_non_word key in
  set "cooldowns" safeKey (VObj {["timestamp" := timestamp]}) st.

Definition getSudoList (st : store) : value * store :=
  let '(data, st) := get "config" "sudo" st in
  (if JS.truthy data then JS.or (JS.field data "numbers") (VArr []) else VArr [], st).

Definition addSudo (number : value) (st : store) : option store :=
  let '(d, st) := get "config" "sudo" st in
  let data := JS.or d (VObj {["numbers" := VArr []]}) in
  old ← JS.iterate (JS.or (JS.field data "numbers") (VArr []));
  numbers ← JS.from_Set (old ++ [number]);
  Some (set "config" "sudo" (VObj {["numbers" := VArr numbers]}) st).

(** [.filter(n => n !== number)] *)
Fixpoint without (number : value) (l : list value) : option (list value) :=
  match l with
  | [] => Some []
  | n :: l =>
    b ← JS.strict_eq n number;
    rest ← without number l;
    Some (if b : bool then rest else n :: rest)
  end.

Definition removeSudo (number : value) (st : store) : option store :=
  let '(d, st) := get "config" "sudo" st in
  let data := JS.or d (VObj {["numbers" := VArr []]}) in
  old ← JS.as_array (JS.or (JS.field data "numbers") (VArr []));
  numbers ← without number old;
  Some (set "config" "sudo" (VObj {["numbers" := VArr numbers]}) st).

(** Runs of [addWarn], of [addCard] and of [logActivity] on one key. *)
Definition addWarns (jid groupId : string) (reasons : list value) (st : store)
  : option store :=
  foldl (λ o reason, o ≫= λ st, snd <$> addWarn jid groupId reason st)
        (Some st) reasons.

Definition addCards (jid : string) (cards : list value) (st : store)
  : option store :=
  foldl (λ o card, o ≫= addCard jid card) (Some st) cards.

Fixpoint logActivities (jid groupId : string) (n : nat) (st : store)
  : option store :=
  match n with
  | 0 => Some st
  | S n => logActivity jid groupId st ≫= logActivities jid groupId n
  end.

End Database.

(** *** The end of the process *)

(** The listener of [exit] is [flushAll]; the listeners of [SIGINT] and
    [SIGTERM] call [flushAll] and then [process.exit()], which runs the
    listener of [exit]. *)
Definition on_exit (st : store) : store := flushAll st.

Definition on_signal (st : store) : store := on_exit (flushAll st).

(** No armed timeout of another table writes the file of [name], as none
    does when table names are kept apart by their files. *)
Definition own_file (name : string) (st : store) : Prop :=
  ∀ h tm, timers st !! h = Some tm → timer_table tm ≠ name →
          dbFile (timer_table tm) ≠ dbFile name.

(* ------------------------------------------------------------------ *)
(** ** Objects that are enumerated *)

Lemma dict_lookup_empty {A} k : (∅ : dict A) !! k = None.
Proof. done. Qed.

Lemma assoc_assign_eq {A} k (v : A) l : assoc k (assign k v l) = Some v.
Proof.
  induction l as [|[k' v'] l IH]; simpl; [by rewrite decide_True|].
  destruct (decide (k' = k)) as [->|Hne]; simpl.
  - by rewrite decide_True.
  - by rewrite decide_False.
Qed.

Lemma assoc_assign_ne {A} k k' (v : A) l :
  k ≠ k' → assoc k' (assign k v l) = assoc k' l.
Proof.
  intros Hne. induction l as [|[k0 v0] l IH]; simpl.
  - by rewrite decide_False.
  - destruct (decide (k0 = k)) as [->|Hne0]; simpl.
    + by rewrite !decide_False.
    + by rewrite IH.
Qed.

Lemma assoc_None {A} k (l : list (string * A)) : assoc k l = None ↔ k ∉ l.*1.
Proof.
  induction l as [|[k' v'] l IH]; simpl.
  - split; [intros _; apply not_elem_of_nil|done].
  - rewrite not_elem_of_cons. destruct (decide (k' = k)) as [->|Hne].
    + split; [done|]. by intros [? _].
    + rewrite IH. split; [by split|by intros [_ ?]].
Qed.

Lemma assoc_filter_eq {A} k (l : list (string * A)) :
  assoc k (filter (λ e, e.1 ≠ k) l) = None.
Proof.
  apply assoc_None. intros ([k' v] & Hk & [Hne _]%list_elem_of_filter)%list_elem_of_fmap.
  simpl in *. congruence.
Qed.

Lemma assoc_filter_ne {A} k k' (l : list (string * A)) :
  k ≠ k' → assoc k' (filter (λ e, e.1 ≠ k) l) = assoc k' l.
Proof.
  intros Hne. induction l as [|[k0 v0] l IH]; [done|].
  rewrite filter_cons. simpl. destruct (decide (k0 ≠ k)) as [Hk|Hk]; simpl.
  - by rewrite IH.
  - apply dec_stable in Hk as ->. by rewrite decide_False.
Qed.

Lemma dict_lookup_insert_eq {A} (o : dict A) k v : <[k := v]> o !! k = Some v.
Proof. apply assoc_assign_eq. Qed.

Lemma dict_lookup_insert_ne {A} (o : dict A) k k' v :
  k ≠ k' → <[k := v]> o !! k' = o !! k'.
Proof. apply assoc_assign_ne. Qed.

Lemma dict_lookup_delete_eq {A} (o : dict A) k : delete k o !! k = None.
Proof. apply assoc_filter_eq. Qed.

Lemma dict_lookup_delete_ne {A} (o : dict A) k k' :
  k ≠ k' → delete k o !! k' = o !! k'.
Proof. apply assoc_filter_ne. Qed.

Lemma dict_lookup_delete_Some {A} (o : dict A) k k' (v : A) :
  delete k o !! k' = Some v ↔ k ≠ k' ∧ o !! k' = Some v.
Proof.
  destruct (decide (k = k')) as [->|Hne].
  - rewrite dict_lookup_delete_eq. split; [done|]. by intros [? _].
  - rewrite dict_lookup_delete_ne by done. split; [by split|by intros [_ ?]].
Qed.

Lemma elem_of_names {A} (o : dict A) k : k ∈ (props o).*1 ↔ is_Some (o !! k).
Proof.
  unfold lookup, dict_lookup. rewrite <- not_eq_None_Some, assoc_None.
  split; [by intros ? ?|apply dec_stable].
Qed.

Lemma names_assign {A} k (v : A) l :
  (assign k v l).*1 = if decide (k ∈ l.*1) then l.*1 else l.*1 ++ [k].
Proof.
  induction l as [|[k' v'] l IH]; [done|].
  rewrite fmap_cons. cbn [assign fst].
  destruct (decide (k' = k)) as [->|Hne]; rewrite fmap_cons; cbn [fst].
  - by rewrite decide_True by apply list_elem_of_here.
  - rewrite IH. destruct (decide (k ∈ l.*1)) as [Hin|Hin].
    + by rewrite decide_True by by apply list_elem_of_further.
    + rewrite decide_False; [done|]. rewrite not_elem_of_cons. by split.
Qed.

Lemma NoDup_names_insert {A} (o : dict A) k v :
  NoDup (props o).*1 → NoDup (props (<[k := v]> o)).*1.
Proof.
  intros Hnd. unfold insert, dict_insert. simpl. rewrite names_assign.
  destruct (decide (k ∈ (props o).*1)); [done|].
  apply NoDup_app. split; [done|]. split; [|apply NoDup_singleton].
  by intros x Hx ->%list_elem_of_singleton.
Qed.

Lemma names_delete {A} (o : dict A) k :
  (props (delete k o)).*1 = filter (λ k', k' ≠ k) (props o).*1.
Proof.
  unfold delete, dict_delete. simpl.
  induction (props o) as [|[k' v'] l IH]; [done|].
  rewrite fmap_cons, !filter_cons. simpl.
  destruct (decide (k' ≠ k)); [|done]. by rewrite fmap_cons, IH.
Qed.

Lemma NoDup_names_delete {A} (o : dict A) k :
  NoDup (props o).*1 → NoDup (props (delete k o)).*1.
Proof. rewrite names_delete. apply NoDup_filter. Qed.

Lemma index_names (names : list string) :
  (omap (λ k, (λ n, (n, k)) <$> array_index k) names).*2
  = filter (λ k, array_index k ≠ None) names.
Proof.
  induction names as [|k names IH]; [done|].
  rewrite filter_cons. cbn [omap list_omap].
  destruct (array_index k) as [n|] eqn:Hk; cbn [fmap option_fmap option_map].
  - rewrite decide_True by done. by rewrite fmap_cons, IH.
  - by rewrite decide_False by (by intros ?).
Qed.

Lemma Object_keys_perm {A} (o : dict A) : Object_keys o ≡ₚ (props o).*1.
Proof.
  unfold Object_keys. rewrite merge_sort_Permutation, index_names.
  induction (props o).*1 as [|k names IH]; [done|].
  rewrite !filter_cons. destruct (array_index k) as [n|] eqn:Hk.
  - rewrite decide_True, decide_False by (done || by intros ?).
    simpl. by rewrite IH.
  - rewrite decide_False, decide_True by (done || by intros ?).
    rewrite <- Permutation_middle. by rewrite IH.
Qed.

Lemma elem_of_Object_keys {A} (o : dict A) k :
  k ∈ Object_keys o ↔ is_Some (o !! k).
Proof. by rewrite Object_keys_perm, elem_of_names. Qed.

Lemma NoDup_Object_keys {A} (o : dict A) :
  NoDup (props o).*1 → NoDup (Object_keys o).
Proof. by rewrite Object_keys_perm. Qed.

(** Names that are no array indices are listed as they were created. *)
Lemma Object_keys_names {A} (o : dict A) :
  Forall (λ k, array_index k = None) (props o).*1 →
  Object_keys o = (props o).*1.
Proof.
  intros Hnames. unfold Object_keys.
  assert (omap (λ k, (λ n, (n, k)) <$> array_index k) (props o).*1 = []) as ->.
  { induction Hnames as [|k names Hk _ IH]; [done|]. simpl. by rewrite Hk. }
  simpl. induction Hnames as [|k names Hk _ IH]; [done|].
  rewrite filter_cons, decide_True by done. by rewrite IH.
Qed.

(* ------------------------------------------------------------------ *)
(** ** The table store *)

Lemma with_cache_id st : with_cache (cache st) st = st.
Proof. by destruct st. Qed.

Lemma loadTable_eq name st :
  loadTable name st =
  (table name st, with_cache (<[name := table name st]> (cache st)) st).
Proof.
  unfold table, loadTable.
  destruct (cache st !! name) as [db|] eqn:Hc; simpl; [|done].
  by rewrite insert_id, with_cache_id.
Qed.

Lemma table_cached name db st : cache st !! name = Some db → table name st = db.
Proof. unfold table, loadTable. by intros ->. Qed.

Lemma table_ext name st1 st2 :
  cache st1 = cache st2 → files st1 = files st2 → table name st1 = table name st2.
Proof.
  unfold table, loadTable, readFileSync. intros -> ->.
  by destruct (cache st2 !! name).
Qed.

Lemma table_with_cache_eq name db c st :
  table name (with_cache (<[name := db]> c) st) = db.
Proof. apply table_cached. simpl. by rewrite lookup_insert_eq. Qed.

Lemma table_with_cache_ne name other db st :
  name ≠ other →
  table other (with_cache (<[name := db]> (cache st)) st) = table other st.
Proof.
  intros Hne. unfold table, loadTable, readFileSync. simpl.
  rewrite lookup_insert_ne by done. by destruct (cache st !! other).
Qed.

(** Loading a table shows no other table, and no table differently. *)
Lemma table_loadTable name other st :
  table other (loadTable name st).2 = table other st.
Proof.
  rewrite loadTable_eq. simpl. destruct (decide (name = other)) as [->|Hne].
  - apply table_with_cache_eq.
  - by apply table_with_cache_ne.
Qed.

Lemma cache_saveTable name st : cache (saveTable name st) = cache st.
Proof. unfold saveTable. by destruct (writeQueues st !! name). Qed.

Lemma files_saveTable name st : files (saveTable name st) = files st.
Proof. unfold saveTable. by destruct (writeQueues st !! name). Qed.

Lemma writes_saveTable name st : writes (saveTable name st) = writes st.
Proof. unfold saveTable. by destruct (writeQueues st !! name). Qed.

(** What a key without a record inherits has no property to copy: [set]
    stores what it would store over no record at all. *)
Lemma own_props_inherited k :
  JS.own_props (JS.or (JS.inherited k) (VObj ∅)) = ∅.
Proof.
  unfold JS.inherited. destruct (bool_decide _); [done|].
  by destruct (bool_decide _).
Qed.

Lemma stored_index (m : gmap string value) K v :
  stored (JS.index m K) v = stored (JS.prop m K) v.
Proof.
  unfold stored, JS.index, JS.prop. destruct (m !! K); [done|]. simpl.
  destruct (JS.is_plain_object v); [|done].
  unfold JS.spread2. by rewrite own_props_inherited.
Qed.

Lemma cache_set T K v st :
  cache (set T K v st) =
  <[T := <[K := stored (JS.prop (table T st) K) v]> (table T st)]> (cache st).
Proof.
  unfold set. rewrite loadTable_eq, cache_saveTable. simpl.
  rewrite insert_insert_eq, <- stored_index. unfold stored.
  by destruct (JS.is_plain_object v).
Qed.

Lemma files_set T K v st : files (set T K v st) = files st.
Proof. unfold set. rewrite loadTable_eq, files_saveTable. done. Qed.

Lemma table_set T K v st :
  table T (set T K v st) = <[K := stored (JS.prop (table T st) K) v]> (table T st).
Proof. apply table_cached. rewrite cache_set. apply lookup_insert_eq. Qed.

Lemma table_set_ne T T' K v st : T ≠ T' → table T' (set T K v st) = table T' st.
Proof.
  intros Hne. unfold table at 1, loadTable, readFileSync.
  rewrite cache_set, files_set, lookup_insert_ne by done.
  unfold table, loadTable, readFileSync. by destruct (cache st !! T').
Qed.

Lemma cache_del T K st :
  cache (del T K st) = <[T := delete K (table T st)]> (cache st).
Proof.
  unfold del. rewrite loadTable_eq, cache_saveTable. simpl.
  by rewrite insert_insert_eq.
Qed.

Lemma table_del T K st : table T (del T K st) = delete K (table T st).
Proof. apply table_cached. rewrite cache_del. apply lookup_insert_eq. Qed.

Lemma get_eq T K st :
  get T K st =
  (JS.nullish (JS.index (table T st) K) VNull,
   with_cache (<[T := table T st]> (cache st)) st).
Proof. unfold get. by rewrite loadTable_eq. Qed.

Lemma get_result T K st :
  (get T K st).1 = JS.nullish (JS.index (table T st) K) VNull.
Proof. by rewrite get_eq. Qed.

Lemma table_get T T' K st : table T' (get T K st).2 = table T' st.
Proof.
  rewrite get_eq. simpl. rewrite <- (table_loadTable T T' st).
  by rewrite loadTable_eq.
Qed.

Lemma get_set T K v st :
  (get T K (set T K v st)).1 = JS.nullish (stored (JS.prop (table T st) K) v) VNull.
Proof.
  rewrite get_result, table_set. unfold JS.index. by rewrite lookup_insert_eq.
Qed.

(* ------------------------------------------------------------------ *)
(** ** The record API *)



(** [get] reads and caches: it returns the record under the key, or else
    what the key inherits, or else the absent marker [null]; it arms no
    timer, touches neither the write queue nor the disk, and leaves every
    entry of every table as it was. *)
Lemma get_absent T K st :
  table T st !! K = None → (get T K st).1 = JS.nullish (JS.inherited K) VNull.
Proof. intros Hnone. rewrite get_result. unfold JS.index. by rewrite Hnone. Qed.

Lemma get_absent_null T K st :
  JS.inherited K = VUndef → table T st !! K = None → (get T K st).1 = VNull.
Proof. intros Hk Hnone. by rewrite (get_absent _ _ _ Hnone), Hk. Qed.

Lemma get_present T K v st :
  table T st !! K = Some v → (get T K st).1 = JS.nullish v VNull.
Proof. intros Hv. rewrite get_result. unfold JS.index. by rewrite Hv. Qed.

Lemma get_leaves_store T K st :
  (get T K st).2 = with_cache (<[T := table T st]> (cache st)) st ∧
  (is_Some (cache st !! T) → (get T K st).2 = st) ∧
  writeQueues (get T K st).2 = writeQueues st ∧
  timers (get T K st).2 = timers st ∧
  next_handle (get T K st).2 = next_handle st ∧
  files (get T K st).2 = files st ∧
  writes (get T K st).2 = writes st ∧
  (∀ T', table T' (get T K st).2 = table T' st) ∧
  (∀ T' db, cache st !! T' = Some db → cache (get T K st).2 !! T' = Some db).
Proof.
  rewrite get_eq. simpl. split; [done|]. split.
  { intros [db Hc]. rewrite (table_cached T db st Hc), insert_id by done.
    apply with_cache_id. }
  repeat (split; [done|]). split.
  - intros T'. rewrite <- (table_get T T' K st). by rewrite get_eq.
  - intros T' db Hc. destruct (decide (T = T')) as [->|Hne].
    + rewrite lookup_insert_eq. f_equal. by apply table_cached.
    + by rewrite lookup_insert_ne.
Qed.

(** The names under which an object inherits something, and no others,
    are those of [JS.inherited]. *)
Lemma inherited_function k :
  k ∈ JS.prototype_functions → JS.inherited k = VFun k.
Proof. intros Hk. unfold JS.inherited. by rewrite bool_decide_eq_true_2. Qed.

Lemma inherited_truthy k :
  JS.inherited k ≠ VUndef → JS.truthy (JS.inherited k) = true ∧
                             JS.nullish (JS.inherited k) VNull = JS.inherited k.
Proof.
  unfold JS.inherited. destruct (bool_decide _); [done|].
  by destruct (bool_decide _).
Qed.

(** After [set(T, K, null)] the key is in the mapping that [getAll]
    returns, with value [null], and [get] returns [null] for it.  For a
    key under whose name an object inherits nothing, that is what [get]
    returns when the table does not have the key, such as the same key
    after [del]. *)
Lemma null_reads_as_absent T K st :
  JS.inherited K = VUndef →
  (getAll T (set T K VNull st)).1 !! K = Some VNull ∧
  (get T K (set T K VNull st)).1 = VNull ∧
  (getAll T (del T K st)).1 !! K = None ∧
  (get T K (del T K st)).1 = (get T K (set T K VNull st)).1 ∧
  (∀ st0, (getAll T st0).1 !! K = None → (get T K st0).1 = VNull).
Proof.
  intros HK.
  assert (table T (del T K st) !! K = None) as Hdel
    by (rewrite table_del; apply lookup_delete_eq).
  split; [|split; [|split; [|split]]].
  - change (table T (set T K VNull st) !! K = Some VNull).
    by rewrite table_set, lookup_insert_eq.
  - by rewrite get_set.
  - exact Hdel.
  - by rewrite get_set, (get_absent_null _ _ _ HK Hdel).
  - intros st0. apply (get_absent_null _ _ _ HK).
Qed.

(** [loadTable] returns a mapping and has it cached: the cached one, or
    the one that the file holds, or the empty one when the file cannot be
    read or holds text that does not parse. *)
Lemma loadTable_caches N st :
  (∃ db st', loadTable N st = (db, st') ∧ cache st' !! N = Some db) ∧
  (cache st !! N = None →
   (readFileSync (dbFile N) st = None ∨
    ∃ text, readFileSync (dbFile N) st = Some text ∧ JSON.parse text = None) →
   loadTable N st = (∅, with_cache (<[N := ∅]> (cache st)) st)).
Proof.
  split.
  - rewrite loadTable_eq. eexists _, _. split; [done|]. simpl.
    apply lookup_insert_eq.
  - intros Hc Hfail. unfold loadTable. rewrite Hc.
    destruct Hfail as [->|(text & -> & Hp)]; simpl; by rewrite ?Hp.
Qed.

(** On a name under which an object inherits nothing, with mappings in
    the cache and files of the kind that the store writes, [loadTable_raw]
    does what [loadTable] does. *)
Lemma loadTable_raw_regular N st :
  JS.inherited N = VUndef →
  loadTable_raw N (VObj <$> cache st) (JSON.of_content <$> files st)
  = (VObj (loadTable N st).1, VObj <$> cache (loadTable N st).2).
Proof.
  intros HN. unfold loadTable_raw, loadTable, readFileSync, JS.index.
  rewrite !lookup_fmap. destruct (cache st !! N) as [db|] eqn:Hc; simpl; [done|].
  rewrite HN. simpl. rewrite lookup_insert_eq, fmap_insert.
  destruct (files st !! dbFile N) as [[m|t]|]; simpl; reflexivity.
Qed.

(* ------------------------------------------------------------------ *)
(** ** Balances *)

Lemma balance_of_user (u : value) :
  JS.or (JS.field (JS.or u (VObj {["balance" := VNum 0]})) "balance") (VNum 0)
  = if JS.truthy u then JS.or (JS.field u "balance") (VNum 0) else VNum 0.
Proof. unfold JS.or at 2. by destruct (JS.truthy u). Qed.

Lemma getBalance_result jid st :
  (getBalance jid st).1 =
  let u := (get "users" jid st).1 in
  if JS.truthy u then JS.or (JS.field u "balance") (VNum 0) else VNum 0.
Proof. unfold getBalance. by destruct (get "users" jid st). Qed.

(** A key without a record reads as a value without fields and without
    properties to copy, whatever it inherits. *)
Lemma inherited_field k f : JS.field (JS.nullish (JS.inherited k) VNull) f = VUndef.
Proof.
  unfold JS.inherited. destruct (bool_decide _); [done|].
  by destruct (bool_decide _).
Qed.

Lemma get_absent_field T K f st :
  table T st !! K = None → JS.field (get T K st).1 f = VUndef.
Proof. intros Hnone. rewrite (get_absent _ _ _ Hnone). apply inherited_field. Qed.

Lemma get_absent_props T K st :
  table T st !! K = None → JS.own_props (JS.or (get T K st).1 (VObj ∅)) = ∅.
Proof.
  intros Hnone. rewrite (get_absent _ _ _ Hnone).
  unfold JS.inherited. destruct (bool_decide _); [done|].
  by destruct (bool_decide _).
Qed.

Lemma getBalance_no_record jid st :
  table "users" st !! jid = None → (getBalance jid st).1 = VNum 0.
Proof.
  intros Hnone. rewrite getBalance_result. simpl.
  rewrite (get_absent_field _ _ _ _ Hnone). by destruct (JS.truthy _).
Qed.

Lemma getBalance_set_balance jid (n : Z) st :
  (getBalance jid (set "users" jid (VObj {["balance" := VNum n]}) st)).1 = VNum n.
Proof.
  rewrite getBalance_result, get_set. unfold stored, JS.spread2. simpl.
  unfold JS.prop. rewrite lookup_union_l', lookup_singleton_eq.
  - by destruct n.
  - by rewrite lookup_singleton_eq.
Qed.

Lemma addBalance_eq jid (cur amount : Z) st :
  (getBalance jid st).1 = VNum cur →
  addBalance jid (VNum amount) st =
  Some (set "users" jid (VObj {["balance" := VNum (cur + amount)]})
            (get "users" jid st).2).
Proof.
  rewrite getBalance_result. unfold addBalance.
  destruct (get "users" jid st) as [u st1]. simpl.
  rewrite balance_of_user. by intros ->.
Qed.

Lemma removeBalance_eq jid (cur amount : Z) st :
  (getBalance jid st).1 = VNum cur →
  removeBalance jid (VNum amount) st =
  Some (Z.max 0 (cur - amount),
        set "users" jid (VObj {["balance" := VNum (Z.max 0 (cur - amount))]})
            (get "users" jid st).2).
Proof.
  rewrite getBalance_result. unfold removeBalance.
  destruct (get "users" jid st) as [u st1]. simpl.
  rewrite balance_of_user. by intros ->.
Qed.

Lemma balance_run_nonnegative jid calls st (cur : Z) :
  (getBalance jid st).1 = VNum cur → (0 ≤ cur)%Z →
  Forall adds_nonnegative calls →
  ∃ st' (bal : Z), balance_run jid calls st = Some st' ∧
                   (getBalance jid st').1 = VNum bal ∧
                   (0 ≤ bal ≤ cur + foldr Z.add 0 (credit <$> calls))%Z.
Proof.
  unfold balance_run. revert st cur.
  induction calls as [|c calls IH]; intros st cur Hcur Hpos Hcalls.
  - simpl. exists st, cur. split; [done|]. split; [done|lia].
  - apply Forall_cons in Hcalls as [Hc Hcalls]. simpl.
    destruct c as [a|a]; simpl in Hc.
    + rewrite (addBalance_eq jid cur a st Hcur).
      destruct (IH (set "users" jid (VObj {["balance" := VNum (cur + a)]})
                      (get "users" jid st).2) (cur + a)%Z)
        as (st' & bal & Hrun & Hbal & Hle);
        [apply getBalance_set_balance|lia|done|].
      exists st', bal. split; [done|]. split; [done|].
      change (list_fmap _ _ credit calls) with (credit <$> calls). simpl. lia.
    + rewrite (removeBalance_eq jid cur a st Hcur). simpl.
      destruct (IH (set "users" jid
                      (VObj {["balance" := VNum (Z.max 0 (cur - a))]})
                      (get "users" jid st).2) (Z.max 0 (cur - a)))
        as (st' & bal & Hrun & Hbal & Hle);
        [apply getBalance_set_balance|lia|done|].
      exists st', bal. split; [done|]. split; [done|].
      change (list_fmap _ _ credit calls) with (credit <$> calls). simpl. lia.
Qed.

Lemma credit_take calls k :
  Forall adds_nonnegative calls →
  (0 ≤ foldr Z.add 0 (credit <$> take k calls)
     ≤ foldr Z.add 0 (credit <$> calls))%Z.
Proof.
  intros Hcalls. revert k.
  induction Hcalls as [|c calls Hc _ IH]; intros k.
  - by rewrite take_nil.
  - assert (0 ≤ credit c)%Z as Hcredit by (destruct c; simpl in *; lia).
    rewrite fmap_cons. cbn [foldr]. destruct k as [|k].
    + specialize (IH 0). rewrite take_0 in *.
      change (foldr Z.add 0%Z (credit <$> [])) with 0%Z in *. lia.
    + specialize (IH k). rewrite firstn_cons, fmap_cons. cbn [foldr]. lia.
Qed.


(* ------------------------------------------------------------------ *)
(** ** File paths *)

Lemma string_app_cons (x : ascii) (a b : string) :
  String x a +:+ b = String x (a +:+ b).
Proof. reflexivity. Qed.

Lemma string_app_nil_l (a : string) : "" +:+ a = a.
Proof. reflexivity. Qed.

Lemma string_app_assoc (a b c : string) : (a +:+ b) +:+ c = a +:+ (b +:+ c).
Proof.
  induction a as [|x a IH]; [done|]. by rewrite !string_app_cons, IH.
Qed.

Lemma ascii_of_string_app (a b : string) :
  list_ascii_of_string (a +:+ b) = list_ascii_of_string a ++ list_ascii_of_string b.
Proof.
  induction a as [|x a IH]; [done|]. rewrite string_app_cons. simpl.
  by rewrite IH.
Qed.

Lemma string_app_inv_tail (a b c : string) : a +:+ c = b +:+ c → a = b.
Proof.
  intros Heq. apply (f_equal list_ascii_of_string) in Heq.
  rewrite !ascii_of_string_app in Heq. apply app_inv_tail in Heq.
  apply (f_equal string_of_list_ascii) in Heq.
  by rewrite !string_of_list_ascii_of_string in Heq.
Qed.

Lemma string_app_nonempty_r (a b : string) : b ≠ "" → a +:+ b ≠ "".
Proof.
  destruct a; rewrite ?string_app_cons, ?string_app_nil_l; congruence.
Qed.

Lemma split_nonempty s : path.split s ≠ [].
Proof.
  destruct s as [|c s]; simpl; [done|].
  destruct (Ascii.eqb c path.sep); [done|]. by destruct (path.split s).
Qed.

Lemma split_plain s : path.has_sep s = false → path.split s = [s].
Proof.
  induction s as [|c s IH]; simpl; [done|].
  destruct (Ascii.eqb c path.sep); simpl; [done|].
  intros Hs. by rewrite IH.
Qed.

Lemma split_app_sep (a b : string) :
  path.split (a +:+ "/" +:+ b) = path.split a ++ path.split b.
Proof.
  induction a as [|c a IH]; [done|]. rewrite string_app_cons. simpl.
  rewrite IH. destruct (Ascii.eqb c path.sep); [done|].
  pose proof (split_nonempty a). by destruct (path.split a).
Qed.

Lemma has_sep_app (a b : string) :
  path.has_sep (a +:+ b) = path.has_sep a || path.has_sep b.
Proof.
  induction a as [|c a IH]; [done|]. rewrite string_app_cons. simpl.
  by rewrite IH, orb_assoc.
Qed.

Lemma unsplit_snoc (segs : list string) (x : string) :
  path.unsplit (segs ++ [x]) =
  match segs with
  | [] => x
  | _ => path.unsplit segs +:+ "/" +:+ x
  end.
Proof.
  induction segs as [|a segs IH]; [done|].
  destruct segs as [|b segs]; [done|].
  change (a +:+ "/" +:+ path.unsplit ((b :: segs) ++ [x]) =
          (a +:+ "/" +:+ path.unsplit (b :: segs)) +:+ "/" +:+ x).
  by rewrite IH, !string_app_assoc.
Qed.

Lemma json_suffix_proper (name : string) :
  let x := name +:+ ".json" in x ≠ "" ∧ x ≠ "." ∧ x ≠ "..".
Proof.
  destruct name as [|a [|b [|c name]]];
    rewrite ?string_app_cons, ?string_app_nil_l; repeat split; congruence.
Qed.

Lemma json_suffix_no_trailing_sep (p : string) :
  path.ends_with_sep (p +:+ ".json") = false.
Proof.
  unfold path.ends_with_sep. rewrite ascii_of_string_app.
  change (list_ascii_of_string ".json")
    with (list_ascii_of_string ".jso" ++ ["n"%char]).
  by rewrite app_assoc, last_snoc.
Qed.

Lemma push_proper b stack seg :
  seg ≠ "" → seg ≠ "." → seg ≠ ".." → path.push b stack seg = seg :: stack.
Proof.
  intros H1 H2 H3. unfold path.push.
  rewrite decide_False by (intros [?|?]; congruence).
  by rewrite decide_False.
Qed.

Lemma normalize_nonempty p : path.normalize p ≠ "".
Proof.
  unfold path.normalize. repeat case_decide; [done| |].
  - by destruct (path.starts_with_sep p), (path.ends_with_sep p).
  - destruct (path.starts_with_sep p); [done|].
    destruct (path.ends_with_sep p); [|done].
    by apply string_app_nonempty_r.
Qed.

Lemma join_nonempty args : path.join args ≠ "".
Proof.
  unfold path.join. destruct (filter _ args); [done|]. apply normalize_nonempty.
Qed.

(** For a table name without a separator, the file path is the data
    directory's prefix, the name and the extension, spelled out. *)
Lemma dbFile_plain :
  ∃ prefix : string, ∀ name,
    path.has_sep name = false → dbFile name = prefix +:+ name +:+ ".json".
Proof.
  pose proof (join_nonempty [__dirname; "../../data"]) as HD.
  fold DATA_DIR in HD.
  set (abs := path.starts_with_sep DATA_DIR).
  set (kept := path.normalizeString (negb abs) (path.split DATA_DIR)).
  exists ((if abs then "/" else "") +:+
          match kept with
          | [] => ""
          | _ => path.unsplit kept +:+ "/"
          end).
  intros name Hname.
  destruct (json_suffix_proper name) as (Hx1 & Hx2 & Hx3).
  unfold dbFile, path.join.
  rewrite !filter_cons_True by done. rewrite filter_nil.
  change (path.unsplit [DATA_DIR; name +:+ ".json"])
    with (DATA_DIR +:+ "/" +:+ name +:+ ".json").
  unfold path.normalize.
  rewrite decide_False by (destruct DATA_DIR; [done|discriminate]).
  assert (path.starts_with_sep (DATA_DIR +:+ "/" +:+ name +:+ ".json") = abs)
    as -> by (unfold abs; destruct DATA_DIR; [done|reflexivity]).
  assert (path.ends_with_sep (DATA_DIR +:+ "/" +:+ name +:+ ".json") = false)
    as ->.
  { rewrite <- !string_app_assoc. apply json_suffix_no_trailing_sep. }
  rewrite split_app_sep, (split_plain (name +:+ ".json"))
    by (by rewrite has_sep_app, Hname).
  unfold path.normalizeString. rewrite foldl_app. simpl.
  rewrite push_proper by done.
  simpl. fold (path.normalizeString (negb abs) (path.split DATA_DIR)).
  fold kept. rewrite unsplit_snoc.
  rewrite decide_False.
  - destruct abs, kept; simpl; by rewrite ?string_app_assoc.
  - destruct kept; [done|]. by apply string_app_nonempty_r, string_app_nonempty_r.
Qed.

(** C4, as the code has it.  The path of a table is a function of its
    name, and two different names without a path separator have different
    paths. *)
Theorem dbFile_injective_on_plain_names N1 N2 :
  path.has_sep N1 = false → path.has_sep N2 = false →
  N1 ≠ N2 → dbFile N1 ≠ dbFile N2.
Proof.
  intros H1 H2 Hne. destruct dbFile_plain as [prefix Hp].
  rewrite (Hp N1 H1), (Hp N2 H2). intros Heq. apply Hne.
  apply (inj (String.app prefix)) in Heq. by apply string_app_inv_tail in Heq.
Qed.

(* ------------------------------------------------------------------ *)
(** ** Persistence *)

Lemma vsize_elem (l : list value) x : In x l → vsize x < vsize (VArr l).
Proof.
  simpl. induction l as [|y l IH]; simpl; [done|].
  intros [->|Hx]; [lia|]. specialize (IH Hx). lia.
Qed.

Lemma vsize_lookup (m : gmap string value) k x :
  m !! k = Some x → vsize x < vsize (VObj m).
Proof.
  intros Hk. simpl.
  rewrite (map_fold_delete_L _ _ k x m); [lia| |done].
  intros. lia.
Qed.

(** Induction on a value with the hypothesis for every element of an
    array and every field of an object. *)
Lemma value_ind_deep (P : value → Prop) :
  P VUndef → P VNull → (∀ b, P (VBool b)) → (∀ n, P (VNum n)) →
  (∀ s, P (VStr s)) →
  (∀ l, List.Forall P l → P (VArr l)) →
  (∀ m, map_Forall (λ _, P) m → P (VObj m)) →
  (∀ k, P (VFun k)) →
  ∀ v, P v.
Proof.
  intros Hu Hn Hb Hz Hs Harr Hobj Hfun.
  assert (∀ n v, vsize v < n → P v) as Hall; [|by eauto].
  induction n as [|n IH]; intros v Hv; [lia|].
  destruct v as [| | | | |l|m|k]; auto.
  - apply Harr, List.Forall_forall. intros x Hx. apply IH.
    pose proof (vsize_elem l x Hx). lia.
  - apply Hobj. intros k x Hk. apply IH.
    pose proof (vsize_lookup m k x Hk). lia.
Qed.

Lemma storable_obj (m : gmap string value) :
  storable (VObj m) = true ↔ map_Forall (λ _ x, storable x = true) m.
Proof. simpl. by rewrite bool_decide_eq_true, map_Forall_fmap. Qed.

(** A value without [undefined] inside is the value of its own JSON
    text. *)
Lemma revive_serialize v :
  storable v = true → JSON.revive <$> JSON.serialize v = Some v.
Proof.
  induction v as [| | | | |l IH|m IH|k] using value_ind_deep; try done.
  - simpl. intros Hl. do 2 f_equal. rewrite map_map.
    rewrite <- (map_id l) at 2. apply map_ext_in. intros x Hx.
    rewrite List.Forall_forall in IH. rewrite forallb_forall in Hl.
    specialize (IH x Hx (Hl x Hx)).
    by destruct (JSON.serialize x); simplify_eq/=.
  - rewrite storable_obj. intros Hm. simpl. do 2 f_equal.
    apply map_eq. intros k. rewrite lookup_fmap, lookup_omap.
    destruct (m !! k) as [x|] eqn:Hk; [|done]. simpl.
    apply (IH k x Hk), (Hm k x Hk).
Qed.

Lemma json_ind_deep (P : json → Prop) :
  P JNull → (∀ b, P (JBool b)) → (∀ n, P (JNum n)) → (∀ s, P (JStr s)) →
  (∀ l, List.Forall P l → P (JArr l)) →
  (∀ m, map_Forall (λ _, P) m → P (JObj m)) →
  ∀ j, P j.
Proof.
  intros Hn Hb Hz Hs Harr Hobj.
  assert (∀ n j, jsize j < n → P j) as Hall; [|by eauto].
  induction n as [|n IH]; intros j Hj; [lia|].
  destruct j as [| | | |l|m]; auto.
  - apply Harr, List.Forall_forall. intros x Hx. apply IH.
    assert (jsize x < jsize (JArr l)); [|lia].
    clear -Hx. simpl. induction l as [|y l IHl]; simpl; [done|].
    destruct Hx as [->|Hx]; [lia|]. specialize (IHl Hx). lia.
  - apply Hobj. intros k x Hk. apply IH.
    assert (jsize x < jsize (JObj m)); [|lia]. simpl.
    rewrite (map_fold_delete_L _ _ k x m); [lia| |done]. intros. lia.
Qed.

(** What is read back from JSON text has no [undefined] inside. *)
Lemma storable_revive j : storable (JSON.revive j) = true.
Proof.
  induction j as [| | | |l IH|m IH] using json_ind_deep; try done.
  - simpl. apply forallb_forall. intros v [x [<- Hx]]%in_map_iff.
    rewrite List.Forall_forall in IH. by apply IH.
  - change (storable (VObj (JSON.revive <$> m)) = true).
    rewrite storable_obj, map_Forall_fmap. intros k x Hk. by apply (IH k x).
Qed.

Lemma parse_stringify (db : gmap string value) :
  JSON.parse (JSON.stringify db) = Some (JSON.revive <$> omap JSON.serialize db).
Proof. done. Qed.

Lemma parse_stringify_storable (db : gmap string value) :
  storable (VObj db) = true → JSON.parse (JSON.stringify db) = Some db.
Proof.
  intros Hdb. pose proof (revive_serialize (VObj db) Hdb) as Hrt.
  rewrite parse_stringify. simpl in Hrt. congruence.
Qed.

Lemma table_restart T st :
  table T (restart st) = default ∅ (files st !! dbFile T ≫= JSON.parse).
Proof. done. Qed.

Lemma files_write_back T st :
  write_fails (length (writes st)) = false →
  files (write_back T st) !! dbFile T
  = Some (JSON.stringify (default ∅ (cache st !! T))).
Proof.
  intros Hok. unfold write_back, writeFileSync. simpl.
  rewrite Hok. apply lookup_insert_eq.
Qed.

Lemma files_flush_ok st T :
  write_fails (length (writes st)) = false →
  files (flush st T) !! dbFile T
  = Some (JSON.stringify (default ∅ (cache st !! T))).
Proof.
  intros Hok. unfold flush, writeFileSync.
  destruct (writeQueues st !! T); simpl; by rewrite Hok, lookup_insert_eq.
Qed.


(* ------------------------------------------------------------------ *)
(** ** The forced flush *)

Lemma lookup_map {A B} (f : A → B) (l : list A) i x :
  l !! i = Some x → map f l !! i = Some (f x).
Proof.
  revert i. induction l as [|y l IH]; intros [|i] Hi; simplify_eq/=; eauto.
Qed.

Lemma cache_flush st n : cache (flush st n) = cache st.
Proof. unfold flush. by destruct (writeQueues st !! n). Qed.

Lemma writeQueues_flush st n : writeQueues (flush st n) = writeQueues st.
Proof. unfold flush. by destruct (writeQueues st !! n). Qed.

Lemma writes_flush st n :
  writes (flush st n) =
  writes st ++ [Write n (dbFile n) (JSON.stringify (default ∅ (cache st !! n)))].
Proof. unfold flush. by destruct (writeQueues st !! n). Qed.

Lemma files_flush_other st n file :
  dbFile n ≠ file → files (flush st n) !! file = files st !! file.
Proof.
  intros Hne. unfold flush, writeFileSync.
  destruct (writeQueues st !! n); simpl;
    destruct (write_fails _); [destruct (torn _)| |destruct (torn _)|];
    by rewrite ?lookup_insert_ne.
Qed.

Lemma timers_flush st n h :
  timers st !! h = None ∨ writeQueues st !! n = Some h →
  timers (flush st n) !! h = None.
Proof.
  unfold flush. intros [Hh|Hq].
  - destruct (writeQueues st !! n); simpl; [|done].
    by rewrite lookup_delete_None; right.
  - rewrite Hq. simpl. apply lookup_delete_eq.
Qed.

Lemma cache_flushTables names st : cache (flushTables names st) = cache st.
Proof.
  revert st. induction names as [|n names IH]; intros st; [done|].
  simpl. by rewrite IH, cache_flush.
Qed.

Lemma writes_flushTables names st :
  writes (flushTables names st) =
  writes st ++
  map (λ n, Write n (dbFile n) (JSON.stringify (default ∅ (cache st !! n))))
      names.
Proof.
  revert st. induction names as [|n names IH]; intros st.
  - simpl. by rewrite app_nil_r.
  - change (flushTables (n :: names) st) with (flushTables names (flush st n)).
    rewrite IH, writes_flush, <- app_assoc. f_equal.
    refine (f_equal2 cons _ _); [done|].
    apply map_ext. intros n'. by rewrite cache_flush.
Qed.

Lemma files_flushTables_other names st file :
  (∀ n, n ∈ names → dbFile n ≠ file) →
  files (flushTables names st) !! file = files st !! file.
Proof.
  revert st. induction names as [|n names IH]; intros st Hne; [done|].
  simpl. rewrite IH by (intros ??; apply Hne; by right).
  apply files_flush_other, Hne. by left.
Qed.

Lemma timers_flushTables names st h :
  timers st !! h = None ∨ (∃ n, n ∈ names ∧ writeQueues st !! n = Some h) →
  timers (flushTables names st) !! h = None.
Proof.
  revert st. induction names as [|n names IH]; intros st Hh; simpl.
  - destruct Hh as [?|(n & Hn & _)]; [done|]. by apply elem_of_nil in Hn.
  - apply IH. destruct Hh as [Hh|(n' & Hn' & Hq)].
    + left. apply timers_flush. by left.
    + apply elem_of_cons in Hn' as [->|Hn'].
      * left. apply timers_flush. by right.
      * right. exists n'. by rewrite writeQueues_flush.
Qed.

(** The write of the [i]-th table of the loop reaches its file when the
    call does not throw, whatever the other calls do, provided no table
    later in the loop has the same file. *)
Lemma files_flushTables names st i n :
  names !! i = Some n →
  write_fails (length (writes st) + i) = false →
  (∀ j n', i < j → names !! j = Some n' → dbFile n' ≠ dbFile n) →
  files (flushTables names st) !! dbFile n
  = Some (JSON.stringify (default ∅ (cache st !! n))).
Proof.
  revert st i. induction names as [|a names IH]; intros st i Hi Hok Hlater;
    [done|].
  destruct i as [|i]; simpl in *.
  - simplify_eq. rewrite files_flushTables_other.
    + apply files_flush_ok. by rewrite Nat.add_0_r in Hok.
    + intros n' Hn'. apply list_elem_of_lookup in Hn' as [j Hj].
      apply (Hlater (S j)); [lia|done].
  - rewrite (IH (flush st a) i); [by rewrite cache_flush|done| |].
    + rewrite writes_flush, length_app. simpl.
      by replace (length (writes st) + 1 + i) with (length (writes st) + S i)
        by lia.
    + intros j n' Hj. apply (Hlater (S j)). lia.
Qed.

(* ------------------------------------------------------------------ *)
(** ** The write scheduler *)

Lemma queued_boot disk : queued (boot disk).
Proof.
  split; [|split]; simpl.
  - intros ??. by rewrite lookup_empty.
  - by intros ??.
  - constructor.
Qed.

Lemma queued_with_cache c st : queued (with_cache c st) ↔ queued st.
Proof. done. Qed.

Lemma queued_with_now t st : queued (with_now t st) ↔ queued st.
Proof. done. Qed.

Lemma queued_loadTable name st : queued st → queued (loadTable name st).2.
Proof. by rewrite loadTable_eq. Qed.

Lemma timers_saveTable name st :
  timers (saveTable name st) =
  <[next_handle st := Timer name (now st + 500)]>
    (match writeQueues st !! name with
     | Some h => delete h (timers st)
     | None => timers st
     end).
Proof. unfold saveTable. by destruct (writeQueues st !! name). Qed.

Lemma writeQueues_saveTable name st :
  writeQueues (saveTable name st) = <[name := next_handle st]> (writeQueues st).
Proof. unfold saveTable. by destruct (writeQueues st !! name). Qed.

Lemma next_handle_saveTable name st :
  next_handle (saveTable name st) = S (next_handle st).
Proof. unfold saveTable. by destruct (writeQueues st !! name). Qed.

Lemma now_saveTable name st : now (saveTable name st) = now st.
Proof. unfold saveTable. by destruct (writeQueues st !! name). Qed.

(** An armed timeout that survives [saveTable name] belongs to another
    table. *)
Lemma timers_saveTable_old name st h tm :
  queued st → h ≠ next_handle st →
  timers (saveTable name st) !! h = Some tm →
  timers st !! h = Some tm ∧ timer_table tm ≠ name.
Proof.
  intros [Hq _] Hh. rewrite timers_saveTable, lookup_insert_ne by done.
  destruct (writeQueues st !! name) as [old|] eqn:Hold.
  - rewrite lookup_delete_Some. intros [Hne Htm]. split; [done|].
    intros <-. apply Hq in Htm. congruence.
  - intros Htm. split; [done|]. intros <-. apply Hq in Htm. congruence.
Qed.

Lemma queued_saveTable name st : queued st → queued (saveTable name st).
Proof.
  intros Hq. pose proof Hq as (Hq1 & Hq2 & Hq3). split; [|split].
  - intros h tm Htm. rewrite writeQueues_saveTable.
    destruct (decide (h = next_handle st)) as [->|Hne].
    + rewrite timers_saveTable, lookup_insert_eq in Htm. simplify_eq.
      apply dict_lookup_insert_eq.
    + apply timers_saveTable_old in Htm as [Htm Hname]; [|done..].
      rewrite dict_lookup_insert_ne by done. by apply Hq1.
  - intros n h. rewrite writeQueues_saveTable, next_handle_saveTable.
    destruct (decide (name = n)) as [->|Hne].
    + rewrite dict_lookup_insert_eq. intros [= <-]. lia.
    + rewrite dict_lookup_insert_ne by done. intros Hn%Hq2. lia.
  - rewrite writeQueues_saveTable. by apply NoDup_names_insert.
Qed.

Lemma queued_set T K v st : queued st → queued (set T K v st).
Proof.
  intros Hq. unfold set. rewrite loadTable_eq.
  by apply queued_saveTable.
Qed.

Lemma queued_del T K st : queued st → queued (del T K st).
Proof.
  intros Hq. unfold del. rewrite loadTable_eq.
  by apply queued_saveTable.
Qed.

Lemma queued_get T K st : queued st → queued (get T K st).2.
Proof. by rewrite get_eq. Qed.

Lemma queued_flush st n : queued st → queued (flush st n).
Proof.
  intros (Hq1 & Hq2 & Hq3). unfold flush.
  destruct (writeQueues st !! n) as [h|]; (split; [|split]); simpl; try done.
  intros h' tm [_ Htm]%lookup_delete_Some. by apply Hq1.
Qed.

Lemma queued_flushTables names st : queued st → queued (flushTables names st).
Proof.
  revert st. induction names as [|n names IH]; intros st Hq; [done|].
  apply IH. by apply queued_flush.
Qed.

(** *** Timeouts that expire *)

Lemma fire_None st h : timers st !! h = None → fire st h = st.
Proof. unfold fire. by intros ->. Qed.

Lemma fire_Some st h tm :
  timers st !! h = Some tm →
  fire st h = write_back (timer_table tm) (clearTimeout h st).
Proof. unfold fire. by intros ->. Qed.

Lemma cache_fire st h : cache (fire st h) = cache st.
Proof. unfold fire. by destruct (timers st !! h). Qed.

Lemma now_fire st h : now (fire st h) = now st.
Proof. unfold fire. by destruct (timers st !! h). Qed.

Lemma timers_fire st h : timers (fire st h) = delete h (timers st).
Proof.
  unfold fire. destruct (timers st !! h) eqn:Hh; [done|].
  by rewrite delete_id.
Qed.

Lemma queued_fire st h : queued st → queued (fire st h).
Proof.
  intros (Hq1 & Hq2 & Hq3). destruct (timers st !! h) as [tm|] eqn:Hh.
  - rewrite (fire_Some _ _ tm Hh). split; [|split]; simpl.
    + intros h' tm' [Hne Htm']%lookup_delete_Some.
      rewrite dict_lookup_delete_ne; [by apply Hq1|].
      intros Heq. apply Hq1 in Hh, Htm'. congruence.
    + intros n h' [_ Hn]%dict_lookup_delete_Some. by apply Hq2 in Hn.
    + by apply NoDup_names_delete.
  - by rewrite fire_None.
Qed.

Lemma cache_fires hs st : cache (foldl fire st hs) = cache st.
Proof.
  revert st. induction hs as [|h hs IH]; intros st; [done|].
  simpl. by rewrite IH, cache_fire.
Qed.

Lemma queued_fires hs st : queued st → queued (foldl fire st hs).
Proof.
  revert st. induction hs as [|h hs IH]; intros st Hq; [done|].
  apply IH. by apply queued_fire.
Qed.

Lemma queued_elapse d st : queued st → queued (elapse d st).
Proof. intros Hq. unfold elapse. by apply queued_with_now, queued_fires. Qed.

Lemma queued_getAll T st : queued st → queued (getAll T st).2.
Proof. apply queued_loadTable. Qed.

Lemma queued_flushAll st : queued st → queued (flushAll st).
Proof. apply queued_flushTables. Qed.

Create HintDb queued.

#[local] Hint Resolve queued_get queued_set queued_del queued_getAll
  queued_flushAll queued_elapse : queued.

Lemma queued_exec st c : queued st → queued (exec st c).
Proof. intros Hq. destruct c; simpl; auto with queued. Qed.

Lemma queued_run calls st : queued st → queued (run calls st).
Proof.
  revert st. induction calls as [|c calls IH]; intros st Hq; [done|].
  apply IH. by apply queued_exec.
Qed.

Lemma length_le_1_of_all_equal {A} (l : list A) :
  NoDup l → (∀ x y, x ∈ l → y ∈ l → x = y) → length l ≤ 1.
Proof.
  intros Hnd Heq. destruct l as [|x [|y l]]; simpl; [lia..|].
  apply NoDup_cons in Hnd as [Hx _]. exfalso. apply Hx.
  rewrite (Heq x y); [by left|by left|by right; left].
Qed.

Lemma elem_of_pending name st h tm :
  (h, tm) ∈ pending name st ↔ timers st !! h = Some tm ∧ timer_table tm = name.
Proof.
  unfold pending. rewrite list_elem_of_filter, elem_of_map_to_list.
  simpl. split; intros [? ?]; by split.
Qed.

(** At most one armed timeout per table. *)
Lemma pending_at_most_one name st : queued st → length (pending name st) ≤ 1.
Proof.
  intros [Hq _]. apply length_le_1_of_all_equal.
  - apply NoDup_filter, NoDup_map_to_list.
  - intros [h1 tm1] [h2 tm2] [H1 T1]%elem_of_pending [H2 T2]%elem_of_pending.
    pose proof (Hq _ _ H1) as Q1. pose proof (Hq _ _ H2) as Q2.
    rewrite T1 in Q1. rewrite T2 in Q2. simplify_eq. congruence.
Qed.

(** [saveTable] leaves one armed timeout for its table: the new one, due
    a full delay from now. *)
Lemma pending_saveTable name st :
  queued st →
  pending name (saveTable name st)
  = [(next_handle st, Timer name (now st + 500))].
Proof.
  intros Hq.
  assert ((next_handle st, Timer name (now st + 500))
            ∈ pending name (saveTable name st)) as Hin.
  { apply elem_of_pending. by rewrite timers_saveTable, lookup_insert_eq. }
  pose proof (pending_at_most_one name _ (queued_saveTable name st Hq)) as Hlen.
  destruct (pending name (saveTable name st)) as [|x [|y l]]; simpl in Hlen.
  - by apply elem_of_nil in Hin.
  - apply list_elem_of_singleton in Hin. by subst.
  - lia.
Qed.

Lemma writes_fire st h :
  writes (fire st h) =
  writes st ++
  match timers st !! h with
  | Some tm => [Write (timer_table tm) (dbFile (timer_table tm))
                  (JSON.stringify (default ∅ (cache st !! timer_table tm)))]
  | None => []
  end.
Proof.
  unfold fire. destruct (timers st !! h); [done|]. by rewrite app_nil_r.
Qed.

Lemma writes_for_app name l1 l2 :
  writes_for name (l1 ++ l2) = writes_for name l1 ++ writes_for name l2.
Proof. apply filter_app. Qed.

Lemma writes_for_other name w :
  write_table w ≠ name → writes_for name [w] = [].
Proof. intros Hne. unfold writes_for. by rewrite filter_cons_False. Qed.

Lemma writes_for_same name w :
  write_table w = name → writes_for name [w] = [w].
Proof. intros Heq. unfold writes_for. by rewrite filter_cons_True. Qed.

(** Expiring timeouts of other tables make no write for the table. *)
Lemma fires_elsewhere T hs st :
  (∀ h tm, timers st !! h = Some tm → timer_table tm ≠ T) →
  writes_for T (writes (foldl fire st hs)) = writes_for T (writes st).
Proof.
  revert st. induction hs as [|h hs IH]; intros st Hst; [done|].
  simpl. rewrite IH.
  - rewrite writes_fire, writes_for_app.
    destruct (timers st !! h) as [tm|] eqn:Hh; [|by rewrite app_nil_r].
    rewrite writes_for_other, app_nil_r; [done|]. by apply (Hst h).
  - intros h' tm. rewrite timers_fire.
    intros [_ Htm]%lookup_delete_Some. by apply (Hst h').
Qed.

Section one_table.

Variables (T : string) (hT : nat) (tmT : timer).

Lemma fire_other st h : armed T hT tmT st → h ≠ hT →
  writes_for T (writes (fire st h)) = writes_for T (writes st) ∧
  armed T hT tmT (fire st h).
Proof.
  intros (Hq & HT & Htab) Hne. split.
  - rewrite writes_fire, writes_for_app.
    destruct (timers st !! h) as [tm|] eqn:Hh; [|by rewrite app_nil_r].
    rewrite writes_for_other, app_nil_r; [done|]. simpl.
    intros Heq. destruct Hq as [Hq _]. apply Hq in Hh, HT. congruence.
  - split; [by apply queued_fire|]. split; [|done].
    by rewrite timers_fire, lookup_delete_ne.
Qed.

Lemma fire_mine st : armed T hT tmT st →
  writes_for T (writes (fire st hT))
  = writes_for T (writes st)
    ++ [Write T (dbFile T) (JSON.stringify (default ∅ (cache st !! T)))] ∧
  (∀ h tm, timers (fire st hT) !! h = Some tm → timer_table tm ≠ T).
Proof.
  intros (Hq & HT & Htab). split.
  - by rewrite writes_fire, writes_for_app, HT, Htab, writes_for_same.
  - intros h tm. rewrite timers_fire.
    intros [Hne Htm]%lookup_delete_Some.
    intros Heq. destruct Hq as [Hq _]. apply Hq in Htm, HT. congruence.
Qed.

Lemma fires_other hs st : armed T hT tmT st → hT ∉ hs →
  writes_for T (writes (foldl fire st hs)) = writes_for T (writes st) ∧
  armed T hT tmT (foldl fire st hs).
Proof.
  revert st. induction hs as [|h hs IH]; intros st Harmed Hnotin; [done|].
  apply not_elem_of_cons in Hnotin as [Hne Hnotin].
  destruct (fire_other st h Harmed) as [Hw Ha]; [done|].
  destruct (IH (fire st h) Ha Hnotin) as [Hw' Ha']. simpl.
  split; [congruence|done].
Qed.

Lemma fires_mine hs st : armed T hT tmT st → hT ∈ hs →
  writes_for T (writes (foldl fire st hs))
  = writes_for T (writes st)
    ++ [Write T (dbFile T) (JSON.stringify (default ∅ (cache st !! T)))].
Proof.
  revert st. induction hs as [|h hs IH]; intros st Harmed Hin.
  - by apply elem_of_nil in Hin.
  - simpl. destruct (decide (h = hT)) as [->|Hne].
    + destruct (fire_mine st Harmed) as [Hw Hrest].
      by rewrite fires_elsewhere.
    + apply elem_of_cons in Hin as [?|Hin]; [congruence|].
      destruct (fire_other st h Harmed) as [Hw Ha]; [done|].
      by rewrite (IH (fire st h) Ha Hin), Hw, cache_fire.
Qed.

End one_table.

Lemma elem_of_expired t st h :
  h ∈ expired t st ↔ ∃ tm, timers st !! h = Some tm ∧ timer_due tm ≤ t.
Proof.
  unfold expired. rewrite list_elem_of_fmap. split.
  - intros ([h' tm] & -> & Hin). rewrite merge_sort_Permutation in Hin.
    apply list_elem_of_filter in Hin as [Hdue Hin].
    apply elem_of_map_to_list in Hin. by exists tm.
  - intros (tm & Htm & Hdue). exists (h, tm). split; [done|].
    rewrite merge_sort_Permutation. apply list_elem_of_filter.
    split; [done|]. by apply elem_of_map_to_list.
Qed.

Lemma mutate_eq T mu st :
  ∃ db, mutate T mu st = saveTable T (with_cache (<[T := db]> (cache st)) st).
Proof.
  destruct mu as [K v|K]; simpl; unfold set, del; rewrite loadTable_eq; simpl;
    rewrite insert_insert_eq; eauto.
Qed.

(** After a mutation of [T] the table is cached and has an armed timeout
    due a full delay from now; no write has been made. *)
Lemma mutate_arms T mu st :
  queued st →
  armed T (next_handle st) (Timer T (now st + 500)) (mutate T mu st) ∧
  now (mutate T mu st) = now st ∧
  writes (mutate T mu st) = writes st ∧
  is_Some (cache (mutate T mu st) !! T).
Proof.
  intros Hq. destruct (mutate_eq T mu st) as [db ->].
  set (st0 := with_cache (<[T := db]> (cache st)) st).
  change (next_handle st) with (next_handle st0).
  change (now st) with (now st0). change (writes st) with (writes st0).
  assert (queued st0) as Hq0 by done.
  split; [split; [|split]|split; [|split]].
  - by apply queued_saveTable.
  - by rewrite timers_saveTable, lookup_insert_eq.
  - done.
  - by rewrite now_saveTable.
  - by rewrite writes_saveTable.
  - rewrite cache_saveTable. simpl. by rewrite lookup_insert_eq.
Qed.

Lemma elapse_keeps T hT tmT d st :
  armed T hT tmT st → now st + d < timer_due tmT →
  writes_for T (writes (elapse d st)) = writes_for T (writes st) ∧
  queued (elapse d st).
Proof.
  intros Harmed Hdue. unfold elapse.
  destruct (fires_other T hT tmT (expired (now st + d) st) st Harmed)
    as [Hw (Hq & _)]; [|done].
  rewrite elem_of_expired. intros (tm & Htm & Hle).
  destruct Harmed as (_ & HT & _). simplify_eq. lia.
Qed.

(** A burst on [T] makes no write for it. *)
Lemma burst_quiet T more st h :
  armed T h (Timer T (now st + 500)) st → is_Some (cache st !! T) →
  Forall (λ gm, gm.1 < 500) more →
  let st' := burst T more st in
  (∃ h', armed T h' (Timer T (now st' + 500)) st') ∧
  is_Some (cache st' !! T) ∧
  writes_for T (writes st') = writes_for T (writes st).
Proof.
  revert st h. induction more as [|[gap mu] more IH]; intros st h Ha Hc Hgaps.
  - simpl. eauto.
  - apply Forall_cons in Hgaps as [Hgap Hgaps]. simpl in Hgap.
    destruct (elapse_keeps T h _ gap st Ha) as (Hw & Hq); [simpl; lia|].
    destruct (mutate_arms T mu (elapse gap st) Hq) as (Ha' & Hnow & Hw' & Hc').
    rewrite <- Hnow in Ha'.
    destruct (IH _ _ Ha' Hc' Hgaps) as (Hex & Hc'' & Hw'').
    simpl. split; [done|]. split; [done|]. congruence.
Qed.

Lemma timers_fires hs st h tm :
  timers (foldl fire st hs) !! h = Some tm → timers st !! h = Some tm ∧ h ∉ hs.
Proof.
  revert st. induction hs as [|h' hs IH]; intros st Htm.
  - split; [done|]. apply not_elem_of_nil.
  - apply IH in Htm as [Htm Hnotin]. rewrite timers_fire in Htm.
    apply lookup_delete_Some in Htm as [Hne Htm].
    split; [done|]. apply not_elem_of_cons. split; [congruence|done].
Qed.

Lemma pending_nil name st :
  (∀ h tm, timers st !! h = Some tm → timer_table tm ≠ name) →
  pending name st = [].
Proof.
  intros Hno. destruct (pending name st) as [|[h tm] l] eqn:Hp; [done|].
  assert ((h, tm) ∈ pending name st) as Hin by (rewrite Hp; by left).
  apply elem_of_pending in Hin as [Htm Htab]. by apply Hno in Htm.
Qed.

(* ------------------------------------------------------------------ *)
(** ** Deleting a record *)

Lemma files_del T K st : files (del T K st) = files st.
Proof. unfold del. by rewrite loadTable_eq, files_saveTable. Qed.

Lemma writes_set T K v st : writes (set T K v st) = writes st.
Proof. unfold set. by rewrite loadTable_eq, writes_saveTable. Qed.

Lemma writes_del T K st : writes (del T K st) = writes st.
Proof. unfold del. by rewrite loadTable_eq, writes_saveTable. Qed.

Lemma table_ext_ne name st1 st2 :
  cache st1 !! name = cache st2 !! name → files st1 = files st2 →
  table name st1 = table name st2.
Proof.
  unfold table, loadTable, readFileSync. intros -> ->.
  by destruct (cache st2 !! name).
Qed.

Lemma table_del_ne T T' K st : T ≠ T' → table T' (del T K st) = table T' st.
Proof.
  intros Hne. apply table_ext_ne; [|apply files_del].
  by rewrite cache_del, lookup_insert_ne.
Qed.

Lemma mutate_set T K v st : set T K v st = mutate T (Assign K v) st.
Proof. done. Qed.

Lemma mutate_del T K st : del T K st = mutate T (Remove K) st.
Proof. done. Qed.


(* ------------------------------------------------------------------ *)
(** ** What reaches the disk, and what comes back *)

Lemma lookup_json_image (db : gmap string value) K :
  (JSON.revive <$> omap JSON.serialize db) !! K
  = db !! K ≫= λ v, JSON.revive <$> JSON.serialize v.
Proof. rewrite lookup_fmap, lookup_omap. by destruct (db !! K). Qed.

(** A key reads from the text of its table as it read from the table,
    when the record under it, if there is one, is a value that JSON text
    holds. *)
Lemma get_reloaded T K (db : gmap string value) st :
  files st !! dbFile T = Some (JSON.stringify db) →
  (∀ v, db !! K = Some v → storable v = true) →
  (get T K (restart st)).1 = JS.nullish (JS.index db K) VNull.
Proof.
  intros Hfile Hdef. rewrite get_result, table_restart, Hfile.
  change (Some (JSON.stringify db) ≫= JSON.parse)
    with (JSON.parse (JSON.stringify db)).
  rewrite parse_stringify. simpl. unfold JS.index.
  rewrite lookup_json_image. destruct (db !! K) as [v|]; [|done]. simpl.
  by rewrite (revive_serialize v (Hdef v eq_refl)).
Qed.

Lemma writeQueues_flushTables names st :
  writeQueues (flushTables names st) = writeQueues st.
Proof.
  revert st. induction names as [|n names IH]; intros st; [done|].
  simpl. by rewrite IH, writeQueues_flush.
Qed.

Lemma length_writes_flushTables names st :
  length (writes (flushTables names st)) = length (writes st) + length names.
Proof. by rewrite writes_flushTables, length_app, length_map. Qed.

Lemma files_flush_failed st n :
  write_fails (length (writes st)) = true →
  files (flush st n) !! dbFile n
  = match torn (length (writes st)) with
    | Some part => Some part
    | None => files st !! dbFile n
    end.
Proof.
  intros Hf. unfold flush, writeFileSync.
  destruct (writeQueues st !! n); simpl; rewrite Hf;
    destruct (torn _); by rewrite ?lookup_insert_eq.
Qed.

(** The file of the [i]-th table of the loop after it, when no other
    table of the loop has the same file: the text of the table if its
    write did not fail, and if it did what the file held before, or the
    part that the failed write left. *)
Lemma files_flushTables_alone names st i n :
  names !! i = Some n →
  (∀ j n', j ≠ i → names !! j = Some n' → dbFile n' ≠ dbFile n) →
  files (flushTables names st) !! dbFile n
  = if write_fails (length (writes st) + i)
    then match torn (length (writes st) + i) with
         | Some part => Some part
         | None => files st !! dbFile n
         end
    else Some (JSON.stringify (default ∅ (cache st !! n))).
Proof.
  intros Hi Halone.
  destruct (write_fails (length (writes st) + i)) eqn:Hw.
  - revert st i Hi Hw Halone.
    induction names as [|a names IH]; intros st i Hi Hw Halone; [done|].
    change (flushTables (a :: names) st) with (flushTables names (flush st a)).
    destruct i as [|i].
    + simpl in Hi. injection Hi as ->. rewrite files_flushTables_other.
      * rewrite Nat.add_0_r in *. by apply files_flush_failed.
      * intros n' [j Hj]%list_elem_of_lookup. by apply (Halone (S j)).
    + simpl in Hi. rewrite (IH (flush st a) i Hi).
      * rewrite writes_flush, length_app. simpl.
        replace (length (writes st) + 1 + i) with (length (writes st) + S i)
          by lia.
        destruct (torn _); [done|].
        apply files_flush_other. by apply (Halone 0).
      * rewrite writes_flush, length_app. simpl.
        by replace (length (writes st) + 1 + i) with (length (writes st) + S i)
          by lia.
      * intros j n' Hj. apply (Halone (S j)). lia.
  - apply (files_flushTables names st i n Hi Hw).
    intros j n' Hlt. apply Halone. lia.
Qed.

Lemma Object_keys_lookup {A} (o : dict A) n :
  is_Some (o !! n) ↔ ∃ i, Object_keys o !! i = Some n.
Proof. by rewrite <- elem_of_Object_keys, list_elem_of_lookup. Qed.

(** A queued table whose file no other queued table shares. *)
Lemma Object_keys_alone {A} (o : dict A) n i :
  NoDup (props o).*1 →
  Object_keys o !! i = Some n →
  (∀ n', n' ≠ n → is_Some (o !! n') → dbFile n' ≠ dbFile n) →
  ∀ j n', j ≠ i → Object_keys o !! j = Some n' → dbFile n' ≠ dbFile n.
Proof.
  intros Hnd Hi Halone j n' Hne Hj. apply Halone.
  - intros ->. apply Hne.
    exact (NoDup_lookup _ _ _ _ (NoDup_Object_keys o Hnd) Hj Hi).
  - apply Object_keys_lookup. eauto.
Qed.

(** The proviso on the files, checked name by name. *)
Lemma alone_in_queue {A} (q : dict A) n :
  Forall (λ n', n' = n ∨ dbFile n' ≠ dbFile n) (props q).*1 →
  ∀ n', n' ≠ n → is_Some (q !! n') → dbFile n' ≠ dbFile n.
Proof.
  intros Hall n' Hne Hin%elem_of_names.
  rewrite Forall_forall in Hall. by destruct (Hall n' Hin).
Qed.

Lemma files_flushAll_ok T h st :
  (∀ n, write_fails n = false) →
  NoDup (props (writeQueues st)).*1 →
  writeQueues st !! T = Some h →
  (∀ n', n' ≠ T → is_Some (writeQueues st !! n') → dbFile n' ≠ dbFile T) →
  files (flushAll st) !! dbFile T
  = Some (JSON.stringify (default ∅ (cache st !! T))).
Proof.
  intros Hok Hnd Hq Halone.
  destruct (proj1 (Object_keys_lookup (writeQueues st) T)) as [i Hi]; [eauto|].
  unfold flushAll. rewrite (files_flushTables_alone _ _ i T Hi), Hok; [done|].
  by apply Object_keys_alone.
Qed.

Lemma mutate_queues T mu st :
  writeQueues (mutate T mu st) = <[T := next_handle st]> (writeQueues st) ∧
  is_Some (cache (mutate T mu st) !! T).
Proof.
  destruct (mutate_eq T mu st) as [db ->].
  rewrite writeQueues_saveTable, cache_saveTable. simpl.
  by rewrite lookup_insert_eq.
Qed.

Lemma get_cached T K db st :
  cache st !! T = Some db → (get T K st).1 = JS.nullish (JS.index db K) VNull.
Proof. intros Hc. by rewrite get_result, (table_cached T db st Hc). Qed.




Lemma files_fire st h :
  files (fire st h) =
  match timers st !! h with
  | Some tm =>
    if write_fails (length (writes st))
    then match torn (length (writes st)) with
         | Some part => <[dbFile (timer_table tm) := part]> (files st)
         | None => files st
         end
    else <[dbFile (timer_table tm) :=
             JSON.stringify (default ∅ (cache st !! timer_table tm))]> (files st)
  | None => files st
  end.
Proof. unfold fire. by destruct (timers st !! h). Qed.

Lemma own_file_fire T st h : own_file T st → own_file T (fire st h).
Proof.
  intros Hown h' tm. rewrite timers_fire.
  intros [_ Htm]%lookup_delete_Some. by apply (Hown h').
Qed.

Lemma own_file_fires T hs st : own_file T st → own_file T (foldl fire st hs).
Proof.
  revert st. induction hs as [|h hs IH]; intros st Hown; [done|].
  apply IH. by apply own_file_fire.
Qed.

Lemma files_fire_elsewhere T st h :
  (∀ tm, timers st !! h = Some tm → dbFile (timer_table tm) ≠ dbFile T) →
  files (fire st h) !! dbFile T = files st !! dbFile T.
Proof.
  intros Hh. rewrite files_fire.
  destruct (timers st !! h) as [tm|] eqn:Htm; [|done].
  pose proof (Hh tm eq_refl) as Hne.
  destruct (write_fails _); [destruct (torn _)|];
    by rewrite ?lookup_insert_ne.
Qed.

Lemma files_fires_elsewhere T hs st :
  (∀ h tm, timers st !! h = Some tm → dbFile (timer_table tm) ≠ dbFile T) →
  files (foldl fire st hs) !! dbFile T = files st !! dbFile T.
Proof.
  revert st. induction hs as [|h hs IH]; intros st Hst; [done|].
  simpl. rewrite IH.
  - apply files_fire_elsewhere. apply Hst.
  - intros h' tm. rewrite timers_fire.
    intros [_ Htm]%lookup_delete_Some. by apply (Hst h').
Qed.

Lemma files_fire_other T hT tmT st h :
  armed T hT tmT st → own_file T st → h ≠ hT →
  files (fire st h) !! dbFile T = files st !! dbFile T.
Proof.
  intros (Hq & HT & Htab) Hown Hne. apply files_fire_elsewhere.
  intros tm Hh. apply (Hown h); [done|].
  intros Heq. destruct Hq as [Hq _]. apply Hq in Hh, HT. congruence.
Qed.

Lemma files_fires_other T hT tmT hs st :
  armed T hT tmT st → own_file T st → hT ∉ hs →
  files (foldl fire st hs) !! dbFile T = files st !! dbFile T.
Proof.
  revert st. induction hs as [|h hs IH]; intros st Ha Hown Hnotin; [done|].
  apply not_elem_of_cons in Hnotin as [Hne Hnotin]. simpl.
  destruct (fire_other T hT tmT st h Ha) as [_ Ha']; [done|].
  rewrite (IH (fire st h) Ha' (own_file_fire T st h Hown) Hnotin).
  by apply (files_fire_other T hT tmT).
Qed.

Lemma length_writes_fire st h : length (writes st) ≤ length (writes (fire st h)).
Proof. rewrite writes_fire, length_app. lia. Qed.

(** The timeout of [T] among those that expire writes the text of [T],
    when no write fails from now on. *)
Lemma files_fires_mine T hT tmT hs st :
  (∀ n, length (writes st) ≤ n → write_fails n = false) →
  armed T hT tmT st → own_file T st → hT ∈ hs →
  files (foldl fire st hs) !! dbFile T
  = Some (JSON.stringify (default ∅ (cache st !! T))).
Proof.
  revert st. induction hs as [|h hs IH]; intros st Hok Ha Hown Hin.
  - by apply elem_of_nil in Hin.
  - simpl. destruct (decide (h = hT)) as [->|Hne].
    + destruct (fire_mine T hT tmT st Ha) as [_ Hrest].
      rewrite files_fires_elsewhere.
      * destruct Ha as (_ & HT & Htab).
        by rewrite files_fire, HT, (Hok _ (le_n _)), Htab, lookup_insert_eq.
      * intros h tm Htm. pose proof (Hrest h tm Htm) as Htab.
        apply (own_file_fire T st hT Hown h tm Htm Htab).
    + apply elem_of_cons in Hin as [?|Hin]; [congruence|].
      destruct (fire_other T hT tmT st h Ha) as [_ Ha']; [done|].
      rewrite (IH (fire st h)); [by rewrite cache_fire| |done| |done].
      * intros n Hn. apply Hok. pose proof (length_writes_fire st h). lia.
      * by apply own_file_fire.
Qed.

Lemma own_file_mutate T mu st :
  queued st → own_file T st → own_file T (mutate T mu st).
Proof.
  intros Hq Hown h tm Htm Hne.
  destruct (mutate_eq T mu st) as [db Heq]. rewrite Heq in Htm.
  set (st0 := with_cache (<[T := db]> (cache st)) st) in *.
  assert (queued st0) as Hq0 by done.
  destruct (decide (h = next_handle st0)) as [->|Hh].
  - rewrite timers_saveTable, lookup_insert_eq in Htm. by simplify_eq.
  - apply timers_saveTable_old in Htm as [Htm _]; [|done..].
    by apply (Hown h).
Qed.

Lemma files_mutate T mu st : files (mutate T mu st) = files st.
Proof. destruct mu; [apply files_set|apply files_del]. Qed.

Lemma now_elapse d st : now (elapse d st) = now st + d.
Proof. done. Qed.

(** A burst on [T] leaves the file of [T] alone, when no timeout of
    another table writes it. *)
Lemma burst_file T more st h :
  armed T h (Timer T (now st + 500)) st → own_file T st →
  Forall (λ gm, gm.1 < 500) more →
  files (burst T more st) !! dbFile T = files st !! dbFile T ∧
  own_file T (burst T more st).
Proof.
  revert st h. induction more as [|[gap mu] more IH]; intros st h Ha Hown Hgaps.
  - done.
  - apply Forall_cons in Hgaps as [Hgap Hgaps]. simpl in Hgap.
    destruct (elapse_keeps T h _ gap st Ha) as (_ & Hq); [simpl; lia|].
    assert (own_file T (elapse gap st)) as Hown'.
    { unfold elapse. intros h' tm. simpl. by apply own_file_fires. }
    assert (files (elapse gap st) !! dbFile T = files st !! dbFile T) as Hfiles.
    { unfold elapse. simpl. apply (files_fires_other T h _ _ st Ha Hown).
      rewrite elem_of_expired. intros (tm & Htm & Hle).
      destruct Ha as (_ & HT & _). simplify_eq. simpl in Hle. lia. }
    destruct (mutate_arms T mu (elapse gap st) Hq) as (Ha' & Hnow & _ & _).
    rewrite <- Hnow in Ha'.
    destruct (IH _ _ Ha' (own_file_mutate T mu _ Hq Hown') Hgaps) as [Hf Ho].
    simpl. split; [|done]. by rewrite Hf, files_mutate.
Qed.



(* ------------------------------------------------------------------ *)
(** ** Reading a record and patching it *)

Lemma or_nullish a b : JS.or (JS.nullish a VNull) b = JS.or a b.
Proof. by destruct a. Qed.

Lemma or_field_falsy u k (z : value) :
  JS.truthy u = false → JS.field u k = VUndef.
Proof. by destruct u. Qed.

(** [user ? (user.k || 0) : 0] reads what [(user || { k: 0 }).k || 0]
    reads. *)
Lemma field_or_zero u k :
  JS.or (JS.field (JS.or u (VObj {[k := VNum 0]})) k) (VNum 0)
  = if JS.truthy u then JS.or (JS.field u k) (VNum 0) else VNum 0.
Proof.
  unfold JS.or at 2. destruct (JS.truthy u); [done|].
  simpl. unfold JS.prop. by rewrite lookup_singleton_eq.
Qed.

Lemma field_or_zero' u k :
  (if JS.truthy u then JS.or (JS.field u k) (VNum 0) else VNum 0)
  = JS.or (JS.field u k) (VNum 0).
Proof.
  destruct (JS.truthy u) eqn:Hu; [done|].
  by rewrite (or_field_falsy u k VNull Hu).
Qed.

(** The record that [get] returns after a patch of the record it had
    returned. *)
Lemma get_patch T K (m : gmap string value) st :
  (get T K (set T K (VObj m) (get T K st).2)).1
  = VObj (m ∪ JS.own_props (JS.or (get T K st).1 (VObj ∅))).
Proof.
  rewrite get_set, <- stored_index, table_get, (get_result T K st), or_nullish.
  done.
Qed.

Lemma get_patch_other T K K' v st :
  K' ≠ K → (get T K' (set T K v (get T K st).2)).1 = (get T K' st).1.
Proof.
  intros Hne. rewrite !get_result, table_set, table_get. unfold JS.index.
  by rewrite lookup_insert_ne.
Qed.

Lemma get_patch_other_table T T' K K' v st :
  T' ≠ T → (get T' K' (set T K v (get T K st).2)).1 = (get T' K' st).1.
Proof.
  intros Hne. by rewrite !get_result, table_set_ne, table_get.
Qed.

Lemma field_patch_in (m old : gmap string value) k x :
  m !! k = Some x → JS.field (VObj (m ∪ old)) k = x.
Proof.
  intros Hk. simpl. unfold JS.prop. by rewrite (lookup_union_Some_l m old k x).
Qed.

(** A field that the patch does not name keeps its value, for a record
    that has no indices to copy. *)
Lemma field_patch_out (m : gmap string value) u k :
  JS.has_indices u = false → m !! k = None →
  JS.field (VObj (m ∪ JS.own_props (JS.or u (VObj ∅)))) k = JS.field u k.
Proof.
  intros Hu Hk. simpl. unfold JS.prop. rewrite lookup_union_r by done.
  unfold JS.or. destruct (JS.truthy u) eqn:Ht; [by destruct u|].
  rewrite (or_field_falsy u k VNull Ht). done.
Qed.

(* ------------------------------------------------------------------ *)
(** ** Balance and stardust *)

Lemma addBalance_unfold jid amount st :
  addBalance jid amount st =
  (bal ← JS.plus (JS.or (JS.field (JS.or (get "users" jid st).1
                                     (VObj {["balance" := VNum 0]})) "balance")
                        (VNum 0)) amount;
   Some (set "users" jid (VObj {["balance" := bal]}) (get "users" jid st).2)).
Proof. unfold addBalance. by destruct (get "users" jid st). Qed.

Lemma addStardust_unfold jid amount st :
  addStardust jid amount st =
  (dust ← JS.plus (JS.or (JS.field (JS.or (get "users" jid st).1
                                      (VObj {["stardust" := VNum 0]})) "stardust")
                         (VNum 0)) amount;
   Some (set "users" jid (VObj {["stardust" := dust]}) (get "users" jid st).2)).
Proof. unfold addStardust. by destruct (get "users" jid st). Qed.

Lemma getStardust_result jid st :
  (getStardust jid st).1 = JS.or (JS.field (get "users" jid st).1 "stardust") (VNum 0).
Proof.
  unfold getStardust. destruct (get "users" jid st) as [u st1]. simpl.
  apply field_or_zero'.
Qed.

Lemma getBalance_result' jid st :
  (getBalance jid st).1 = JS.or (JS.field (get "users" jid st).1 "balance") (VNum 0).
Proof. rewrite getBalance_result. apply field_or_zero'. Qed.

(** X5.  [addBalance] and [addStardust] patch one field each: on a record that
    is not a list or a string, adding to the balance leaves the stardust,
    and every other field, as it was, and adding stardust leaves the
    balance, and every other field, as it was. *)
Theorem balance_and_stardust_are_separate jid amount st st' :
  JS.has_indices (get "users" jid st).1 = false →
  (addBalance jid amount st = Some st' →
   (getStardust jid st').1 = (getStardust jid st).1 ∧
   ∀ k, k ≠ "balance" →
        JS.field (get "users" jid st').1 k = JS.field (get "users" jid st).1 k) ∧
  (addStardust jid amount st = Some st' →
   (getBalance jid st').1 = (getBalance jid st).1 ∧
   ∀ k, k ≠ "stardust" →
        JS.field (get "users" jid st').1 k = JS.field (get "users" jid st).1 k).
Proof.
  intros Hu. split.
  - rewrite addBalance_unfold. destruct (JS.plus _ amount) as [bal|]; [|done].
    simpl. intros [= <-].
    assert (∀ k, k ≠ "balance" →
      JS.field (get "users" jid
                  (set "users" jid (VObj {["balance" := bal]})
                     (get "users" jid st).2)).1 k
      = JS.field (get "users" jid st).1 k) as Hkeep.
    { intros k Hk. rewrite get_patch. apply field_patch_out; [done|].
      by apply lookup_singleton_ne. }
    split; [|done]. by rewrite !getStardust_result, Hkeep.
  - rewrite addStardust_unfold. destruct (JS.plus _ amount) as [dust|]; [|done].
    simpl. intros [= <-].
    assert (∀ k, k ≠ "stardust" →
      JS.field (get "users" jid
                  (set "users" jid (VObj {["stardust" := dust]})
                     (get "users" jid st).2)).1 k
      = JS.field (get "users" jid st).1 k) as Hkeep.
    { intros k Hk. rewrite get_patch. apply field_patch_out; [done|].
      by apply lookup_singleton_ne. }
    split; [|done]. by rewrite !getBalance_result', Hkeep.
Qed.

(* ------------------------------------------------------------------ *)
(** ** Warns *)

Lemma getWarns_result jid g st :
  (getWarns jid g st).1
  = JS.or (JS.field (get "warns" (pair_key g jid) st).1 "warns") (VNum 0).
Proof.
  unfold getWarns. destruct (get "warns" (pair_key g jid) st) as [u st1].
  apply field_or_zero'.
Qed.

(** The list that [addWarn] extends: [data.reasons || []]. *)
Lemma reasons_or_empty u :
  JS.or (JS.field (JS.or u (VObj (<["warns" := VNum 0]> {["reasons" := VArr []]})))
           "reasons") (VArr [])
  = JS.or (JS.field u "reasons") (VArr []).
Proof.
  unfold JS.or at 2. destruct (JS.truthy u) eqn:Hu; [done|].
  by rewrite (or_field_falsy u "reasons" VNull Hu).
Qed.

Lemma warns_or_zero u :
  JS.or (JS.field (JS.or u (VObj (<["warns" := VNum 0]> {["reasons" := VArr []]})))
           "warns") (VNum 0)
  = JS.or (JS.field u "warns") (VNum 0).
Proof.
  unfold JS.or at 2. destruct (JS.truthy u) eqn:Hu; [done|].
  by rewrite (or_field_falsy u "warns" VNull Hu).
Qed.

Lemma addWarn_unfold jid g reason st :
  addWarn jid g reason st =
  let d := (get "warns" (pair_key g jid) st).1 in
  warns ← JS.plus (JS.or (JS.field d "warns") (VNum 0)) (VNum 1);
  reasons ← JS.iterate (JS.or (JS.field d "reasons") (VArr []));
  Some (warns,
        set "warns" (pair_key g jid)
          (VObj (<["warns" := warns]> {["reasons" := VArr (reasons ++ [reason])]}))
          (get "warns" (pair_key g jid) st).2).
Proof.
  unfold addWarn. destruct (get "warns" (pair_key g jid) st) as [u st1].
  simpl. by rewrite warns_or_zero, reasons_or_empty.
Qed.

(** One warn on a record with [n] warns and the reasons [l]. *)
Lemma addWarn_step jid g reason (n : Z) l st :
  (getWarns jid g st).1 = VNum n →
  JS.iterate (JS.or (JS.field (get "warns" (pair_key g jid) st).1 "reasons")
                (VArr [])) = Some l →
  ∃ st', addWarn jid g reason st = Some (VNum (n + 1), st') ∧
         (getWarns jid g st').1 = VNum (n + 1) ∧
         JS.field (get "warns" (pair_key g jid) st').1 "reasons"
           = VArr (l ++ [reason]).
Proof.
  rewrite getWarns_result. intros Hn Hl. rewrite addWarn_unfold. simpl.
  rewrite Hn, Hl. simpl. eexists. split; [done|].
  rewrite getWarns_result, get_patch.
  rewrite !(field_patch_in _ _ _ _ (lookup_insert_eq _ _ _)).
  split; [by destruct (n + 1)%Z|].
  apply field_patch_in. by rewrite lookup_insert_ne, lookup_singleton_eq.
Qed.

Lemma addWarns_from jid g reasons : ∀ (n : Z) l st,
  (getWarns jid g st).1 = VNum n →
  JS.iterate (JS.or (JS.field (get "warns" (pair_key g jid) st).1 "reasons")
                (VArr [])) = Some l →
  ∃ st', addWarns jid g reasons st = Some st' ∧
         (getWarns jid g st').1 = VNum (n + Z.of_nat (length reasons)) ∧
         (reasons ≠ [] →
          JS.field (get "warns" (pair_key g jid) st').1 "reasons"
            = VArr (l ++ reasons)).
Proof.
  unfold addWarns. induction reasons as [|r reasons IH]; intros n l st Hn Hl.
  - simpl. exists st. by rewrite Z.add_0_r.
  - destruct (addWarn_step jid g r n l st Hn Hl) as (st1 & Hadd & Hn1 & Hl1).
    simpl. rewrite Hadd. simpl.
    destruct (IH (n + 1)%Z (l ++ [r]) st1 Hn1) as (st' & Hrun & Hn' & Hl').
    { by rewrite Hl1. }
    exists st'. split; [done|]. split.
    + rewrite Hn'. f_equal. simpl length. lia.
    + intros _. destruct reasons as [|r' reasons].
      * simpl in Hrun. by simplify_eq.
      * rewrite Hl' by done. by rewrite <- app_assoc.
Qed.


Lemma get_set_other T K K' v st :
  K' ≠ K → (get T K' (set T K v st)).1 = (get T K' st).1.
Proof.
  intros Hne. rewrite !get_result, table_set. unfold JS.index.
  by rewrite lookup_insert_ne.
Qed.

Lemma get_del T K st :
  (get T K (del T K st)).1 = JS.nullish (JS.inherited K) VNull.
Proof. apply get_absent. rewrite table_del. apply lookup_delete_eq. Qed.

Lemma get_del_other T K K' st :
  K' ≠ K → (get T K' (del T K st)).1 = (get T K' st).1.
Proof.
  intros Hne. rewrite !get_result, table_del. unfold JS.index.
  by rewrite lookup_delete_ne.
Qed.

Lemma get_set_object T K (m : gmap string value) st :
  (get T K (set T K (VObj m) st)).1
  = VObj (m ∪ JS.own_props (JS.or (get T K st).1 (VObj ∅))).
Proof. by rewrite get_set, <- stored_index, (get_result T K st), or_nullish. Qed.

(** The key of a group and a user tells both, for groups without an
    underscore in their id. *)
Lemma pair_key_inj g1 j1 g2 j2 :
  JS.includes "_" g1 = false → JS.includes "_" g2 = false →
  pair_key g1 j1 = pair_key g2 j2 → g1 = g2 ∧ j1 = j2.
Proof.
  unfold pair_key. revert g2.
  induction g1 as [|c g1 IH]; intros [|c' g2]; simpl.
  - intros _ _ Heq. rewrite !string_app_nil_l in Heq. by simplify_eq.
  - intros _ [Hc _]%orb_false_elim. rewrite string_app_nil_l, !string_app_cons.
    intros [= <- _]. done.
  - intros [Hc _]%orb_false_elim _. rewrite string_app_nil_l, !string_app_cons.
    intros [= -> _]. done.
  - intros [_ H1]%orb_false_elim [_ H2]%orb_false_elim.
    rewrite !string_app_cons. intros [= -> Heq].
    destruct (IH g2 H1 H2 Heq) as [-> ->]. done.
Qed.

(** X7.  Warns are kept by group and user: when the ids of two groups hold no
    underscore, a warn or a reset for one pair of a group and a user
    leaves the count of every other pair as it was. *)
Theorem warns_are_per_group_and_user jid g jid' g' st :
  JS.includes "_" g = false → JS.includes "_" g' = false →
  (g, jid) ≠ (g', jid') →
  pair_key g jid ≠ pair_key g' jid' ∧
  (∀ reason w st', addWarn jid g reason st = Some (w, st') →
                   (getWarns jid' g' st').1 = (getWarns jid' g' st).1) ∧
  (getWarns jid' g' (resetWarns jid g st)).1 = (getWarns jid' g' st).1.
Proof.
  intros Hg Hg' Hne.
  assert (pair_key g' jid' ≠ pair_key g jid) as Hkey.
  { intros Heq. apply Hne. by destruct (pair_key_inj g' jid' g jid Hg' Hg Heq) as [-> ->]. }
  split; [done|]. split.
  - intros reason w st'. rewrite addWarn_unfold. simpl.
    destruct (JS.plus _ _) as [n|]; [|done]. simpl.
    destruct (JS.iterate _) as [l|]; [|done]. simpl. intros [= _ <-].
    by rewrite !getWarns_result, get_patch_other.
  - unfold resetWarns. by rewrite !getWarns_result, get_del_other.
Qed.

(* ------------------------------------------------------------------ *)
(** ** Bans *)

Section bans.

Variable started : Z.

Lemma isBanned_result jid st :
  (isBanned jid st).1 = negb (JS.prim_eqb (get "banned" jid st).1 VNull).
Proof. unfold isBanned. by destruct (get "banned" jid st). Qed.


End bans.

(* ------------------------------------------------------------------ *)
(** ** Lists without duplicates: the blacklist and the sudo list *)

Lemma prim_eqb_eq a b :
  JS.is_primitive a = true ∨ JS.is_primitive b = true →
  JS.prim_eqb a b = true ↔ a = b.
Proof.
  intros Hp. destruct a, b; simpl in *;
    rewrite ?bool_decide_eq_true; try (split; congruence);
    destruct Hp; discriminate.
Qed.

Lemma eq_string_eq v s : JS.eq_string v s = true ↔ v = VStr s.
Proof. apply prim_eqb_eq. by right. Qed.

Lemma eq_string_ne v s : JS.eq_string v s = false ↔ v ≠ VStr s.
Proof. rewrite <- eq_string_eq. by destruct (JS.eq_string v s). Qed.

Lemma has_spec x seen :
  JS.is_primitive x = true →
  ∃ b : bool, JS.has x seen = Some b ∧ (b = true ↔ x ∈ seen).
Proof.
  intros Hx. induction seen as [|y seen (b & Hb & Hin)]; simpl.
  - exists false. split; [done|]. split; [done|]. by intros ?%elem_of_nil.
  - unfold JS.strict_eq. rewrite Hx, orb_true_r. simpl.
    destruct (JS.prim_eqb y x) eqn:Hyx.
    + exists true. split; [done|]. split; [|done]. intros _.
      apply prim_eqb_eq in Hyx as ->; [by left|by right].
    + exists b. split; [done|]. rewrite Hin, elem_of_cons.
      split; [by right|]. intros [->|?]; [|done].
      assert (JS.prim_eqb y y = true) as Hyy by (apply prim_eqb_eq; auto).
      congruence.
Qed.

Lemma add_all_spec l : ∀ seen,
  Forall (λ v, JS.is_primitive v = true) l → NoDup seen →
  ∃ r, JS.add_all seen l = Some r ∧ NoDup r ∧
       (∀ y, y ∈ r ↔ y ∈ seen ∨ y ∈ l) ∧
       ((∀ y, y ∈ l → y ∈ seen) → r = seen) ∧
       (NoDup l → (∀ y, y ∈ l → y ∉ seen) → r = seen ++ l).
Proof.
  induction l as [|x l IH]; intros seen Hl Hseen.
  - exists seen. split; [done|]. split; [done|]. split.
    + intros y. rewrite elem_of_nil. split; [by left|]. by intros [?|[]].
    + split; [done|]. intros _ _. by rewrite app_nil_r.
  - apply Forall_cons in Hl as [Hx Hl]. simpl.
    destruct (has_spec x seen Hx) as (b & -> & Hb). simpl.
    destruct b.
    + assert (x ∈ seen) as Hin by by apply Hb.
      destruct (IH seen Hl Hseen) as (r & Hr & Hnd & Hmem & Hsame & Happ).
      exists r. split; [done|]. split; [done|]. split; [|split].
      * intros y. rewrite Hmem, elem_of_cons.
        split; [intros [?|?]; auto|]. intros [?|[->|?]]; auto.
      * intros Hall. apply Hsame. intros y Hy. apply Hall. by right.
      * intros _ Hdis. exfalso. apply (Hdis x); [by left|done].
    + assert (x ∉ seen) as Hnotin by (intros ?%Hb; done).
      assert (NoDup (seen ++ [x])) as Hseen'.
      { apply NoDup_app. split; [done|]. split; [|apply NoDup_singleton].
        intros y Hy Heq%list_elem_of_singleton. by subst. }
      destruct (IH (seen ++ [x]) Hl Hseen') as (r & Hr & Hnd & Hmem & Hsame & Happ).
      exists r. split; [done|]. split; [done|]. split; [|split].
      * intros y. rewrite Hmem, elem_of_app, list_elem_of_singleton, elem_of_cons.
        split; [intros [[?|?]|?]|intros [?|[?|?]]]; auto.
      * intros Hall. exfalso. apply Hnotin, Hall. by left.
      * intros [Hxl Hndl]%NoDup_cons Hdis. rewrite Happ; [by rewrite <- app_assoc|done|].
        intros y Hy [?|Heq%list_elem_of_singleton]%elem_of_app.
        -- apply (Hdis y); [by right|done].
        -- by subst.
Qed.

Lemma add_all_app l1 l2 seen :
  JS.add_all seen (l1 ++ l2) = JS.add_all seen l1 ≫= λ s, JS.add_all s l2.
Proof.
  revert seen. induction l1 as [|x l1 IH]; intros seen; [done|].
  simpl. destruct (JS.has x seen) as [b|]; [|done]. simpl. apply IH.
Qed.

(** [[...new Set([...l, x])]] for a list of strings, numbers and the like:
    no element twice, every element of [l] and [x] and nothing else; [l]
    itself when it has no element twice and holds [x] already, and [l]
    with [x] at the end when it has no element twice and lacks [x]. *)
Lemma from_Set_snoc l x :
  Forall (λ v, JS.is_primitive v = true) l → JS.is_primitive x = true →
  ∃ r, JS.from_Set (l ++ [x]) = Some r ∧ NoDup r ∧
       Forall (λ v, JS.is_primitive v = true) r ∧
       (∀ y, y ∈ r ↔ y ∈ l ∨ y = x) ∧
       (NoDup l → x ∈ l → r = l) ∧
       (NoDup l → x ∉ l → r = l ++ [x]).
Proof.
  intros Hl Hx. unfold JS.from_Set. rewrite add_all_app.
  destruct (add_all_spec l [] Hl (NoDup_nil_2)) as (s & -> & Hnd & Hmem & _ & Happ).
  simpl.
  destruct (add_all_spec [x] s) as (r & Hr & Hndr & Hmemr & Hsame & Happr);
    [by repeat constructor|done|].
  exists r. split; [done|]. split; [done|].
  assert (∀ y, y ∈ r ↔ y ∈ l ∨ y = x) as Hiff.
  { intros y. rewrite Hmemr, Hmem, list_elem_of_singleton, elem_of_nil.
    split.
    - intros [[Hf|?]|?]; [done|by left|by right].
    - intros [?|?]; [by left; right|by right]. }
  split; [|split; [done|split]].
  - apply Forall_forall. intros y [Hy| ->]%Hiff; [|done].
    by apply (proj1 (Forall_forall _ _) Hl).
  - intros Hndl Hin.
    assert (s = l) as -> by (apply (Happ Hndl); by intros ?? ?%elem_of_nil).
    apply Hsame. intros y Heq%list_elem_of_singleton. by subst.
  - intros Hndl Hnotin.
    assert (s = l) as -> by (apply (Happ Hndl); by intros ?? ?%elem_of_nil).
    apply Happr; [apply NoDup_singleton|].
    intros y Heq%list_elem_of_singleton. by subst.
Qed.

Lemma field_or_default u k d :
  JS.or (JS.field (JS.or u (VObj {[k := d]})) k) d = JS.or (JS.field u k) d ∧
  (if JS.truthy u then JS.or (JS.field u k) d else d) = JS.or (JS.field u k) d.
Proof.
  destruct (JS.truthy u) eqn:Hu.
  - split; [|done].
    unfold JS.or at 2.
    rewrite Hu.
    reflexivity.
  - rewrite (or_field_falsy u k VNull Hu). split.
    + unfold JS.or at 2. rewrite Hu. unfold JS.field, JS.prop.
      rewrite lookup_singleton_eq. simpl. unfold JS.or.
      by destruct (JS.truthy d).
    + reflexivity.
Qed.

Section blacklist.

Variable toLowerCase : string → string.

Lemma getBlacklist_result g st :
  (getBlacklist g st).1
  = JS.or (JS.field (get "blacklist" g st).1 "words") (VArr []).
Proof.
  unfold getBlacklist. destruct (get "blacklist" g st) as [u st1].
  apply field_or_default.
Qed.

Lemma addBlacklist_unfold g w st :
  addBlacklist toLowerCase g w st =
  (old ← JS.iterate (getBlacklist g st).1;
   words ← JS.from_Set (old ++ [VStr (toLowerCase w)]);
   Some (set "blacklist" g (VObj {["words" := VArr words]})
           (get "blacklist" g st).2)).
Proof.
  rewrite getBlacklist_result. unfold addBlacklist.
  destruct (get "blacklist" g st) as [u st1]. simpl.
  by rewrite (proj1 (field_or_default u "words" (VArr []))).
Qed.

Lemma removeBlacklist_unfold g w st :
  removeBlacklist toLowerCase g w st =
  (old ← JS.as_array (getBlacklist g st).1;
   Some (set "blacklist" g
           (VObj {["words" :=
                     VArr (filter (λ v, JS.eq_string v (toLowerCase w) = false) old)]})
           (get "blacklist" g st).2)).
Proof.
  rewrite getBlacklist_result. unfold removeBlacklist.
  destruct (get "blacklist" g st) as [u st1]. simpl.
  by rewrite (proj1 (field_or_default u "words" (VArr []))).
Qed.

Lemma getBlacklist_patch g ws st :
  (getBlacklist g (set "blacklist" g (VObj {["words" := VArr ws]})
                     (get "blacklist" g st).2)).1 = VArr ws.
Proof.
  rewrite getBlacklist_result, get_patch.
  by rewrite (field_patch_in _ _ "words" (VArr ws)) by apply lookup_singleton_eq.
Qed.

(** X9.  [addBlacklist] puts the word, in lower case, in the list of the group
    and never twice: the new list has no element twice and holds the old
    elements and the word, nothing else; a list without repeats that has
    the word already is left as it is, and otherwise gets it at its end.
    Adding the word again, in any case of letters, changes nothing. *)
Theorem addBlacklist_adds_once g w ws st :
  (getBlacklist g st).1 = VArr ws →
  Forall (λ v, JS.is_primitive v = true) ws →
  ∃ ws' st',
    addBlacklist toLowerCase g w st = Some st' ∧
    (getBlacklist g st').1 = VArr ws' ∧
    NoDup ws' ∧
    (∀ y, y ∈ ws' ↔ y ∈ ws ∨ y = VStr (toLowerCase w)) ∧
    (NoDup ws → VStr (toLowerCase w) ∈ ws → ws' = ws) ∧
    (NoDup ws → VStr (toLowerCase w) ∉ ws → ws' = ws ++ [VStr (toLowerCase w)]) ∧
    (∀ w2, toLowerCase w2 = toLowerCase w →
           ∃ st'', addBlacklist toLowerCase g w2 st' = Some st'' ∧
                   (getBlacklist g st'').1 = VArr ws').
Proof.
  intros Hws Hprim.
  destruct (from_Set_snoc ws (VStr (toLowerCase w)) Hprim eq_refl)
    as (ws' & Hset & Hnd & Hprim' & Hmem & Hsame & Happ).
  exists ws'. eexists. rewrite addBlacklist_unfold, Hws. simpl. rewrite Hset.
  simpl. split; [done|]. rewrite getBlacklist_patch.
  split; [done|]. split; [done|]. split; [done|]. split; [done|]. split; [done|].
  intros w2 Hw2.
  destruct (from_Set_snoc ws' (VStr (toLowerCase w2)) Hprim' eq_refl)
    as (ws2 & Hset2 & _ & _ & _ & Hsame2 & _).
  eexists. rewrite addBlacklist_unfold, getBlacklist_patch. simpl.
  rewrite Hset2. simpl. split; [done|]. rewrite getBlacklist_patch.
  f_equal. apply Hsame2; [done|]. rewrite Hw2. apply Hmem. by right.
Qed.

(** X10.  [removeBlacklist] takes every occurrence of the word, in lower case,
    out of the list of the group and keeps the rest in their order; after
    [addBlacklist] of a word, [removeBlacklist] of it leaves a list
    without it. *)
Theorem removeBlacklist_removes g w ws st :
  (getBlacklist g st).1 = VArr ws →
  (∃ ws' st',
     removeBlacklist toLowerCase g w st = Some st' ∧
     (getBlacklist g st').1 = VArr ws' ∧
     (VStr (toLowerCase w) ∉ ws') ∧
     (∀ y, y ∈ ws' ↔ (y ∈ ws ∧ y ≠ VStr (toLowerCase w))) ∧
     sublist ws' ws) ∧
  (∀ st1, addBlacklist toLowerCase g w st = Some st1 →
     ∃ ws2 st2, removeBlacklist toLowerCase g w st1 = Some st2 ∧
                (getBlacklist g st2).1 = VArr ws2 ∧
                VStr (toLowerCase w) ∉ ws2).
Proof.
  assert (∀ l : list value,
            VStr (toLowerCase w)
            ∉ filter (λ v, JS.eq_string v (toLowerCase w) = false) l) as Hnotin.
  { intros l [Hne _]%list_elem_of_filter. by apply eq_string_ne in Hne. }
  intros Hws. split.
  - eexists _, _. rewrite removeBlacklist_unfold, Hws. simpl.
    split; [done|]. rewrite getBlacklist_patch. split; [done|].
    split; [apply Hnotin|]. split; [|apply sublist_filter].
    intros y. rewrite list_elem_of_filter, eq_string_ne.
    split; intros [? ?]; by split.
  - intros st1. rewrite addBlacklist_unfold, Hws. simpl.
    destruct (JS.from_Set _) as [ws1|]; [|done]. simpl. intros [= <-].
    eexists _, _. rewrite removeBlacklist_unfold, getBlacklist_patch. simpl.
    split; [done|]. rewrite getBlacklist_patch. split; [done|]. apply Hnotin.
Qed.

End blacklist.

(* ------------------------------------------------------------------ *)
(** ** The sudo list *)

Lemma without_spec number l :
  JS.is_primitive number = true →
  without number l = Some (filter (λ n, JS.prim_eqb n number = false) l).
Proof.
  intros Hp. induction l as [|n l IH]; [done|].
  simpl. unfold JS.strict_eq. rewrite Hp, orb_true_r. simpl. rewrite IH. simpl.
  rewrite filter_cons. by destruct (JS.prim_eqb n number).
Qed.

Lemma prim_eqb_ne a b :
  JS.is_primitive b = true → JS.prim_eqb a b = false ↔ a ≠ b.
Proof.
  intros Hb. rewrite <- (prim_eqb_eq a b) by by right.
  by destruct (JS.prim_eqb a b).
Qed.

Lemma getSudoList_result st :
  (getSudoList st).1
  = JS.or (JS.field (get "config" "sudo" st).1 "numbers") (VArr []).
Proof.
  unfold getSudoList. destruct (get "config" "sudo" st) as [u st1].
  apply field_or_default.
Qed.

Lemma addSudo_unfold number st :
  addSudo number st =
  (old ← JS.iterate (getSudoList st).1;
   numbers ← JS.from_Set (old ++ [number]);
   Some (set "config" "sudo" (VObj {["numbers" := VArr numbers]})
           (get "config" "sudo" st).2)).
Proof.
  rewrite getSudoList_result. unfold addSudo.
  destruct (get "config" "sudo" st) as [u st1]. simpl.
  by rewrite (proj1 (field_or_default u "numbers" (VArr []))).
Qed.

Lemma removeSudo_unfold number st :
  removeSudo number st =
  (old ← JS.as_array (getSudoList st).1;
   numbers ← without number old;
   Some (set "config" "sudo" (VObj {["numbers" := VArr numbers]})
           (get "config" "sudo" st).2)).
Proof.
  rewrite getSudoList_result. unfold removeSudo.
  destruct (get "config" "sudo" st) as [u st1]. simpl.
  by rewrite (proj1 (field_or_default u "numbers" (VArr []))).
Qed.

Lemma getSudoList_patch ns st :
  (getSudoList (set "config" "sudo" (VObj {["numbers" := VArr ns]})
                  (get "config" "sudo" st).2)).1 = VArr ns.
Proof.
  rewrite getSudoList_result, get_patch.
  by rewrite (field_patch_in _ _ "numbers" (VArr ns)) by apply lookup_singleton_eq.
Qed.

(** X11.  The sudo list holds a number once: [addSudo] leaves a list without
    repeats that has the old numbers and the new one, at its end when it
    is new; [removeSudo] takes every occurrence of the number out and
    keeps the others in their order, so the number is gone after
    [addSudo] and [removeSudo] of it.  Numbers are compared as [===]
    does, so a number and the string of its digits are two entries. *)
Theorem sudo_list_is_a_set number ns st :
  (getSudoList st).1 = VArr ns →
  JS.is_primitive number = true →
  (Forall (λ v, JS.is_primitive v = true) ns →
   ∃ ns' st',
     addSudo number st = Some st' ∧
     (getSudoList st').1 = VArr ns' ∧
     NoDup ns' ∧
     (∀ y, y ∈ ns' ↔ (y ∈ ns ∨ y = number)) ∧
     (NoDup ns → number ∈ ns → ns' = ns) ∧
     (NoDup ns → number ∉ ns → ns' = ns ++ [number]) ∧
     ∃ ns'' st'',
       removeSudo number st' = Some st'' ∧
       (getSudoList st'').1 = VArr ns'' ∧
       (number ∉ ns'')) ∧
  (∃ ns' st',
     removeSudo number st = Some st' ∧
     (getSudoList st').1 = VArr ns' ∧
     (number ∉ ns') ∧
     (∀ y, y ∈ ns' ↔ (y ∈ ns ∧ y ≠ number)) ∧
     sublist ns' ns).
Proof.
  intros Hns Hp.
  assert (∀ l : list value,
            number ∉ filter (λ n, JS.prim_eqb n number = false) l) as Hnotin.
  { intros l [Hne _]%list_elem_of_filter. by apply prim_eqb_ne in Hne. }
  split.
  - intros Hprim.
    destruct (from_Set_snoc ns number Hprim Hp)
      as (ns' & Hset & Hnd & _ & Hmem & Hsame & Happ).
    eexists ns', _. rewrite addSudo_unfold, Hns. simpl. rewrite Hset. simpl.
    split; [done|]. rewrite getSudoList_patch.
    split; [done|]. split; [done|]. split; [done|]. split; [done|]. split; [done|].
    eexists _, _. rewrite removeSudo_unfold, getSudoList_patch. simpl.
    rewrite (without_spec number ns' Hp). simpl.
    split; [done|]. rewrite getSudoList_patch. split; [done|]. apply Hnotin.
  - eexists _, _. rewrite removeSudo_unfold, Hns. simpl.
    rewrite (without_spec number ns Hp). simpl.
    split; [done|]. rewrite getSudoList_patch. split; [done|].
    split; [apply Hnotin|]. split; [|apply sublist_filter].
    intros y. rewrite list_elem_of_filter, (prim_eqb_ne y number Hp).
    split; intros [? ?]; by split.
Qed.

(* ------------------------------------------------------------------ *)
(** ** Cards *)

Lemma getCards_result jid st :
  (getCards jid st).1
  = JS.or (JS.field (get "cards" jid st).1 "cards") (VArr []).
Proof.
  unfold getCards. destruct (get "cards" jid st) as [u st1].
  apply field_or_default.
Qed.

Lemma addCard_unfold jid card st :
  addCard jid card st =
  (old ← JS.iterate (getCards jid st).1;
   Some (set "cards" jid (VObj {["cards" := VArr (old ++ [card])]})
           (get "cards" jid st).2)).
Proof.
  rewrite getCards_result. unfold addCard.
  destruct (get "cards" jid st) as [u st1]. simpl.
  by rewrite (proj1 (field_or_default u "cards" (VArr []))).
Qed.

Lemma getCards_patch jid cs st :
  (getCards jid (set "cards" jid (VObj {["cards" := VArr cs]})
                   (get "cards" jid st).2)).1 = VArr cs.
Proof.
  rewrite getCards_result, get_patch.
  by rewrite (field_patch_in _ _ "cards" (VArr cs)) by apply lookup_singleton_eq.
Qed.

Lemma addCards_from jid cards : ∀ cs st,
  (getCards jid st).1 = VArr cs →
  ∃ st', addCards jid cards st = Some st' ∧
         (getCards jid st').1 = VArr (cs ++ cards).
Proof.
  unfold addCards.
  induction cards as [|card cards IH]; intros cs st Hcs; simpl.
  - exists st. by rewrite app_nil_r.
  - rewrite addCard_unfold, Hcs. simpl.
    destruct (IH (cs ++ [card]) _ (getCards_patch jid (cs ++ [card]) st))
      as (st' & Hrun & Hget).
    exists st'. by rewrite Hrun, Hget, <- app_assoc.
Qed.

(** X12.  [addCard] puts the card at the end of the cards of the user, a card
    that is there already included, and leaves the cards of the other
    users alone; the cards added to a user without a record are the
    cards of that user, in the order in which they came. *)
Theorem addCard_appends jid card cs st :
  (getCards jid st).1 = VArr cs →
  (∃ st', addCard jid card st = Some st' ∧
          (getCards jid st').1 = VArr (cs ++ [card]) ∧
          ∀ jid', jid' ≠ jid → (getCards jid' st').1 = (getCards jid' st).1) ∧
  (cs = [] → ∀ cards, ∃ st', addCards jid cards st = Some st' ∧
                             (getCards jid st').1 = VArr cards).
Proof.
  intros Hcs. split.
  - eexists. rewrite addCard_unfold, Hcs. simpl. split; [done|].
    rewrite getCards_patch. split; [done|].
    intros jid' Hne. by rewrite !getCards_result, get_patch_other.
  - intros -> cards. apply (addCards_from jid cards [] st Hcs).
Qed.

(* ------------------------------------------------------------------ *)
(** ** Cooldowns *)

Lemma is_word_char_replaced c :
  JS.is_word_char (if JS.is_word_char c then c else "_"%char) = true.
Proof. by destruct (JS.is_word_char c) eqn:Hc. Qed.

Lemma replace_non_word_idem s :
  JS.replace_non_word (JS.replace_non_word s) = JS.replace_non_word s.
Proof.
  induction s as [|c s IH]; [done|].
  simpl. rewrite IH, is_word_char_replaced. done.
Qed.

Lemma replace_non_word_chars s i c :
  String.get i (JS.replace_non_word s) = Some c → JS.is_word_char c = true.
Proof.
  revert i. induction s as [|x s IH]; intros i; [done|].
  simpl. destruct i as [|i].
  - intros [= <-]. apply is_word_char_replaced.
  - apply IH.
Qed.

Lemma replace_non_word_length s :
  String.length (JS.replace_non_word s) = String.length s.
Proof. induction s as [|c s IH]; simpl; congruence. Qed.

Lemma replace_non_word_fixed s :
  (∀ i c, String.get i s = Some c → JS.is_word_char c = true) →
  JS.replace_non_word s = s.
Proof.
  induction s as [|x s IH]; intros Hs; [done|].
  simpl. rewrite (Hs 0 x eq_refl), IH; [done|].
  intros i c. apply (Hs (S i) c).
Qed.

Lemma getCooldown_result key st :
  (getCooldown key st).1
  = if JS.truthy (get "cooldowns" (JS.replace_non_word key) st).1
    then JS.field (get "cooldowns" (JS.replace_non_word key) st).1 "timestamp"
    else VNum 0.
Proof.
  unfold getCooldown. by destruct (get "cooldowns" _ st) as [u st1].
Qed.

Lemma getDailyCooldown_result jid st :
  (getDailyCooldown jid st).1
  = if JS.truthy (get "cooldowns" ("daily_" +:+ jid) st).1
    then JS.field (get "cooldowns" ("daily_" +:+ jid) st).1 "timestamp"
    else VNum 0.
Proof.
  unfold getDailyCooldown. by destruct (get "cooldowns" _ st) as [u st1].
Qed.

Lemma timestamp_set K ts st :
  let d := (get "cooldowns" K (set "cooldowns" K (VObj {["timestamp" := ts]}) st)).1 in
  (if JS.truthy d then JS.field d "timestamp" else VNum 0) = ts.
Proof.
  simpl. rewrite get_set_object. simpl. unfold JS.prop.
  by rewrite (lookup_union_Some_l _ _ _ ts) by apply lookup_singleton_eq.
Qed.

Section cooldowns.

Variable started : Z.


End cooldowns.

(* ------------------------------------------------------------------ *)
(** ** The ten first of a descending sort *)

Lemma insert_desc_perm x l : JS.insert_desc x l ≡ₚ x :: l.
Proof.
  induction l as [|y l IH]; [done|].
  simpl. destruct (decide (y.1 < x.1)%Z); [done|].
  rewrite IH. apply Permutation_swap.
Qed.

Lemma insert_desc_sorted x l :
  StronglySorted (λ a b : Z * value, (b.1 ≤ a.1)%Z) l →
  StronglySorted (λ a b : Z * value, (b.1 ≤ a.1)%Z) (JS.insert_desc x l).
Proof.
  induction 1 as [|y l Hl IH Hy]; simpl.
  - repeat constructor.
  - destruct (decide (y.1 < x.1)%Z) as [Hlt|Hge].
    + constructor; [by constructor|].
      constructor; [lia|].
      eapply Forall_impl; [exact Hy|]. simpl. intros z Hz. lia.
    + constructor; [done|].
      rewrite insert_desc_perm. constructor; [lia|done].
Qed.

Lemma sort_desc_from l : ∀ acc,
  StronglySorted (λ a b : Z * value, (b.1 ≤ a.1)%Z) acc →
  StronglySorted (λ a b : Z * value, (b.1 ≤ a.1)%Z)
    (foldl (λ acc x, JS.insert_desc x acc) acc l) ∧
  foldl (λ acc x, JS.insert_desc x acc) acc l ≡ₚ acc ++ l.
Proof.
  induction l as [|x l IH]; intros acc Hacc; simpl.
  - by rewrite app_nil_r.
  - destruct (IH _ (insert_desc_sorted x acc Hacc)) as [Hs Hp].
    split; [done|]. rewrite Hp, insert_desc_perm.
    by rewrite (Permutation_middle acc l x).
Qed.

Lemma sort_desc_spec l :
  StronglySorted (λ a b : Z * value, (b.1 ≤ a.1)%Z) (JS.sort_desc l) ∧
  JS.sort_desc l ≡ₚ l.
Proof. apply (sort_desc_from l []). constructor. Qed.

Lemma sorted_lookup (s : list (Z * value)) i j p q :
  StronglySorted (λ a b : Z * value, (b.1 ≤ a.1)%Z) s →
  i ≤ j → s !! i = Some p → s !! j = Some q → (q.1 ≤ p.1)%Z.
Proof.
  intros Hs Hij Hi Hj.
  destruct (decide (i = j)) as [->|Hne].
  { rewrite Hi in Hj. injection Hj as ->. lia. }
  rewrite <- (take_drop j s) in Hs.
  apply (StronglySorted_app_1_elem_of _ _ _ p q Hs).
  - apply list_elem_of_lookup. exists i. rewrite lookup_take_lt by lia. done.
  - apply list_elem_of_lookup. exists 0. by rewrite lookup_drop, Nat.add_0_r.
Qed.

Lemma keyed_spec k l kl :
  keyed k l = Some kl →
  kl.*2 = l ∧
  Forall (λ p, JS.number_or_zero (JS.field p.2 k) = Some p.1) kl.
Proof.
  unfold keyed. rewrite mapM_Some. induction 1 as [|d p l kl Hd _ [IH1 IH2]].
  - by split.
  - destruct (JS.number_or_zero (JS.field d k)) as [z|] eqn:Hz; [|done].
    simpl in Hd. injection Hd as <-. rewrite fmap_cons. simpl.
    split; [by rewrite IH1|]. by constructor.
Qed.

Lemma top_ten_spec k l r :
  top_ten k l = Some r →
  ∃ rest,
    l ≡ₚ r ++ rest ∧
    length r = 10 `min` length l ∧
    (∀ i j u v, i ≤ j → r !! i = Some u → r !! j = Some v →
       ∃ a b, JS.number_or_zero (JS.field u k) = Some a ∧
              JS.number_or_zero (JS.field v k) = Some b ∧ (b ≤ a)%Z) ∧
    (∀ u v, u ∈ r → v ∈ rest →
       ∃ a b, JS.number_or_zero (JS.field u k) = Some a ∧
              JS.number_or_zero (JS.field v k) = Some b ∧ (b ≤ a)%Z).
Proof.
  unfold top_ten. destruct (keyed k l) as [kl|] eqn:Hkl; [|done].
  simpl. intros [= <-].
  destruct (keyed_spec k l kl Hkl) as [Hl Hkeys].
  destruct (sort_desc_spec kl) as [Hs Hp].
  rewrite <- Hp in Hkeys.
  assert (∀ p, p ∈ JS.sort_desc kl →
               JS.number_or_zero (JS.field p.2 k) = Some p.1) as Hkey.
  { by apply Forall_forall. }
  exists (drop 10 (JS.sort_desc kl).*2).
  split; [by rewrite take_drop, Hp, Hl|].
  split; [by rewrite length_take, length_fmap, Hp, <- Hl, length_fmap|].
  rewrite <- fmap_take, <- fmap_drop. split.
  - intros i j u v Hij Hu Hv.
    rewrite list_lookup_fmap in Hu, Hv.
    destruct (take 10 (JS.sort_desc kl) !! i) as [p|] eqn:Hp'; [|done].
    destruct (take 10 (JS.sort_desc kl) !! j) as [q|] eqn:Hq'; [|done].
    simpl in Hu, Hv. injection Hu as <-. injection Hv as <-.
    apply lookup_take_Some in Hp' as [Hp' _].
    apply lookup_take_Some in Hq' as [Hq' _].
    exists p.1, q.1.
    split; [by apply Hkey, (list_elem_of_lookup_2 _ i)|].
    split; [by apply Hkey, (list_elem_of_lookup_2 _ j)|].
    by apply (sorted_lookup _ i j p q Hs).
  - intros u v (p & -> & Hp')%list_elem_of_fmap (q & -> & Hq')%list_elem_of_fmap.
    exists p.1, q.1.
    split.
    { apply Hkey. rewrite <- (take_drop 10 (JS.sort_desc kl)).
      apply elem_of_app. by left. }
    split.
    { apply Hkey. rewrite <- (take_drop 10 (JS.sort_desc kl)).
      apply elem_of_app. by right. }
    rewrite <- (take_drop 10 (JS.sort_desc kl)) in Hs.
    by apply (StronglySorted_app_1_elem_of _ _ _ p q Hs).
Qed.

Lemma top_ten_total k l :
  Forall (λ u, is_Some (JS.number_or_zero (JS.field u k))) l →
  is_Some (top_ten k l).
Proof.
  intros Hl. unfold top_ten.
  assert (is_Some (keyed k l)) as [kl ->]; [|by eexists].
  unfold keyed. apply mapM_is_Some.
  eapply Forall_impl; [exact Hl|].
  intros u [z Hz]. simpl. rewrite Hz. by eexists.
Qed.

(* ------------------------------------------------------------------ *)
(** ** The rich list *)

Lemma getGlobalRichlist_result st :
  (getGlobalRichlist st).1 = richlist (map_to_list (table "users" st)).
Proof. unfold getGlobalRichlist, getAll. by rewrite loadTable_eq. Qed.

Lemma elem_of_registered_users u entries :
  u ∈ registered_users entries ↔
  JS.truthy (JS.field u "registered") = true ∧
  ∃ jid rec, (jid, rec) ∈ entries ∧
             u = JS.spread2 (VObj {["jid" := VStr jid]}) rec.
Proof.
  unfold registered_users. rewrite list_elem_of_filter, list_elem_of_fmap.
  split.
  - intros [Hreg ([jid rec] & -> & Hin)]. split; [done|]. by exists jid, rec.
  - intros [Hreg (jid & rec & Hin & ->)]. split; [done|]. by exists (jid, rec).
Qed.

Lemma jid_of_entry jid (m : gmap string value) :
  JS.field (JS.spread2 (VObj {["jid" := VStr jid]}) (VObj m)) "jid"
  = default (VStr jid) (m !! "jid").
Proof.
  simpl. unfold JS.prop. destruct (m !! "jid") as [x|] eqn:Hx.
  - by rewrite (lookup_union_Some_l m _ _ x Hx).
  - by rewrite lookup_union_r, lookup_singleton_eq.
Qed.

(** X14.  The rich list is the ten richest registered users, in whatever
    order the table is enumerated: it has at most ten entries, each the
    record of a registered user of the table, in descending order of
    balance, a balance that is missing counting as [0]; a registered
    user who is not on it has no more than anyone on it, and the list is
    then full.  An entry has the key of its record under [jid] only when
    the record has no [jid] of its own: the one of the record wins.
    Which of two users of the same balance comes first, or is left out,
    depends on the order of the enumeration and is not said.  The list
    of a group is that same list, whatever the group.  The list is there
    whenever the balance of every registered user is a number or
    missing. *)
Theorem richlist_is_the_top_ten st entries :
  entries ≡ₚ Object_entries (table "users" st) →
  (∀ groupId, getRichlist groupId st = getGlobalRichlist st) ∧
  (getGlobalRichlist st).1 = richlist (Object_entries (table "users" st)) ∧
  ((∀ jid rec, table "users" st !! jid = Some rec →
      let u := JS.spread2 (VObj {["jid" := VStr jid]}) rec in
      JS.truthy (JS.field u "registered") = true →
      is_Some (JS.number_or_zero (JS.field u "balance"))) →
   is_Some (richlist entries)) ∧
  (∀ r, richlist entries = Some r →
     length r ≤ 10 ∧
     (∀ u, u ∈ r →
        JS.truthy (JS.field u "registered") = true ∧
        ∃ jid rec, table "users" st !! jid = Some rec ∧
                   u = JS.spread2 (VObj {["jid" := VStr jid]}) rec ∧
                   ∀ m, rec = VObj m →
                        JS.field u "jid" = default (VStr jid) (m !! "jid")) ∧
     (∀ i j u v, i ≤ j → r !! i = Some u → r !! j = Some v →
        ∃ a b, JS.number_or_zero (JS.field u "balance") = Some a ∧
               JS.number_or_zero (JS.field v "balance") = Some b ∧ (b ≤ a)%Z) ∧
     (∀ jid rec, table "users" st !! jid = Some rec →
        let u := JS.spread2 (VObj {["jid" := VStr jid]}) rec in
        JS.truthy (JS.field u "registered") = true →
        u ∈ r ∨
        (length r = 10 ∧
         ∀ v, v ∈ r →
           ∃ a b, JS.number_or_zero (JS.field v "balance") = Some a ∧
                  JS.number_or_zero (JS.field u "balance") = Some b ∧
                  (b ≤ a)%Z))).
Proof.
  intros Hentries.
  assert (∀ jid rec, (jid, rec) ∈ entries ↔ table "users" st !! jid = Some rec)
    as Hmem.
  { intros jid rec. rewrite Hentries. apply elem_of_map_to_list. }
  split; [done|]. split; [apply getGlobalRichlist_result|].
  unfold richlist. split.
  - intros Hnum. apply top_ten_total, Forall_forall.
    intros u [Hreg (jid & rec & Hin%Hmem & ->)]%elem_of_registered_users.
    by apply Hnum.
  - intros r (rest & Hperm & Hlen & Hsorted & Htop)%top_ten_spec.
    split; [lia|]. split; [|split; [done|]].
    + intros u Hu.
      assert (u ∈ registered_users entries) as Hin.
      { rewrite Hperm. apply elem_of_app. by left. }
      apply elem_of_registered_users in Hin
        as [Hreg (jid & rec & Hin%Hmem & ->)].
      split; [done|]. exists jid, rec. split; [done|]. split; [done|].
      intros m ->. apply jid_of_entry.
    + intros jid rec Hrec Hreg.
      set (u := JS.spread2 (VObj {["jid" := VStr jid]}) rec) in *.
      assert (u ∈ registered_users entries) as Hin.
      { apply elem_of_registered_users. split; [done|].
        exists jid, rec. by rewrite Hmem. }
      rewrite Hperm in Hin. apply elem_of_app in Hin as [Hin|Hin]; [by left|].
      right. split.
      * rewrite Hperm, length_app in Hlen.
        destruct rest; [by apply elem_of_nil in Hin|].
        rewrite length_cons in Hlen. lia.
      * intros v Hv. by apply Htop.
Qed.

(* ------------------------------------------------------------------ *)
(** ** Activity *)

Lemma now_get T K st : now (get T K st).2 = now st.
Proof. by rewrite get_eq. Qed.

Lemma now_set T K v st : now (set T K v st) = now st.
Proof. unfold set. rewrite loadTable_eq, now_saveTable. done. Qed.

Lemma count_or_zero jid g u :
  JS.or (JS.field
           (JS.or u (VObj (<["jid" := VStr jid]>
                             (<["groupId" := VStr g]> {["count" := VNum 0]}))))
           "count") (VNum 0)
  = JS.or (JS.field u "count") (VNum 0).
Proof.
  unfold JS.or at 2. destruct (JS.truthy u) eqn:Hu; [done|].
  by rewrite (or_field_falsy u "count" VNull Hu).
Qed.

Section activity.

Variable started : Z.

Lemma logActivity_unfold jid g st :
  logActivity started jid g st =
  (count ← JS.plus (JS.or (JS.field (get "activity" (pair_key g jid) st).1 "count")
                      (VNum 0)) (VNum 1);
   Some (set "activity" (pair_key g jid)
           (VObj (<["jid" := VStr jid]>
                    (<["groupId" := VStr g]>
                       (<["count" := count]>
                          {["last" := VNum (started + Z.of_nat (now st))]}))))
           (get "activity" (pair_key g jid) st).2)).
Proof.
  unfold logActivity, Date_now. rewrite <- (now_get "activity" (pair_key g jid) st).
  destruct (get "activity" (pair_key g jid) st) as [u st1]. simpl.
  by rewrite count_or_zero.
Qed.

Lemma logActivity_step jid g (c : Z) st :
  JS.or (JS.field (get "activity" (pair_key g jid) st).1 "count") (VNum 0) = VNum c →
  ∃ st', logActivity started jid g st = Some st' ∧
         now st' = now st ∧
         (∀ K, K ≠ pair_key g jid →
               (get "activity" K st').1 = (get "activity" K st).1) ∧
         JS.field (get "activity" (pair_key g jid) st').1 "count" = VNum (c + 1) ∧
         JS.field (get "activity" (pair_key g jid) st').1 "jid" = VStr jid ∧
         JS.field (get "activity" (pair_key g jid) st').1 "groupId" = VStr g ∧
         JS.field (get "activity" (pair_key g jid) st').1 "last"
         = VNum (started + Z.of_nat (now st)).
Proof.
  intros Hc. eexists. rewrite logActivity_unfold, Hc. simpl.
  split; [done|]. rewrite now_set, now_get. split; [done|].
  split; [intros K HK; by apply get_patch_other|].
  rewrite get_patch.
  split; [|split; [|split]]; apply field_patch_in.
  - rewrite !lookup_insert_ne by done. apply lookup_insert_eq.
  - apply lookup_insert_eq.
  - rewrite lookup_insert_ne by done. apply lookup_insert_eq.
  - rewrite !lookup_insert_ne by done. apply lookup_singleton_eq.
Qed.

Lemma logActivities_from jid g n : ∀ (c : Z) st,
  JS.or (JS.field (get "activity" (pair_key g jid) st).1 "count") (VNum 0) = VNum c →
  ∃ st', logActivities started jid g (S n) st = Some st' ∧
         now st' = now st ∧
         (∀ K, K ≠ pair_key g jid →
               (get "activity" K st').1 = (get "activity" K st).1) ∧
         JS.field (get "activity" (pair_key g jid) st').1 "count"
         = VNum (c + Z.of_nat n + 1) ∧
         JS.field (get "activity" (pair_key g jid) st').1 "jid" = VStr jid ∧
         JS.field (get "activity" (pair_key g jid) st').1 "groupId" = VStr g ∧
         JS.field (get "activity" (pair_key g jid) st').1 "last"
         = VNum (started + Z.of_nat (now st)).
Proof.
  induction n as [|n IH]; intros c st Hc.
  - destruct (logActivity_step jid g c st Hc) as (st' & Hrun & Hstep).
    exists st'. simpl. rewrite Hrun. simpl. by rewrite Z.add_0_r.
  - destruct (logActivity_step jid g c st Hc)
      as (st1 & Hrun & Hnow & Hother & Hcount & _).
    destruct (IH (c + 1)%Z st1) as (st' & Hrun' & Hnow' & Hother' & Hcount' & Hrest).
    { rewrite Hcount. by destruct (c + 1)%Z. }
    exists st'. change (logActivities started jid g (S (S n)) st)
      with (logActivity started jid g st ≫= logActivities started jid g (S n)).
    rewrite Hrun. simpl in *. rewrite Hrun'.
    split; [done|]. split; [congruence|].
    split; [intros K HK; by rewrite Hother', Hother|].
    rewrite Hcount', <- Hnow. split; [f_equal; lia|done].
Qed.


End activity.

Lemma of_group_spec g l : ∀ r,
  of_group g l = Some r →
  r = filter (λ d, JS.eq_string (JS.field d "groupId") g = true) l.
Proof.
  induction l as [|d l IH]; intros r; simpl; [by intros [= <-]|].
  destruct (field_of d "groupId") as [x|] eqn:Hx; [|done]. simpl.
  assert (x = JS.field d "groupId") as ->.
  { destruct d; simpl in *; congruence. }
  destruct (of_group g l) as [rest|]; [|done]. simpl. intros [= <-].
  rewrite filter_cons, (IH rest eq_refl).
  by destruct (JS.eq_string (JS.field d "groupId") g).
Qed.

Lemma of_group_total g l :
  Forall (λ d, JS.is_plain_object d = true) l → is_Some (of_group g l).
Proof.
  induction 1 as [|d l Hd _ [rest IH]]; [by eexists|].
  simpl. destruct d; try done. simpl. rewrite IH. by eexists.
Qed.

Lemma getGroupActivity_result g st :
  (getGroupActivity g st).1
  = groupActivity g (map_to_list (table "activity" st)).*2.
Proof. unfold getGroupActivity, getAll. by rewrite loadTable_eq. Qed.

Lemma elem_of_values (m : gmap string value) d :
  d ∈ (map_to_list m).*2 ↔ ∃ key, m !! key = Some d.
Proof.
  rewrite list_elem_of_fmap. split.
  - intros ([key d'] & -> & Hin%elem_of_map_to_list). by exists key.
  - intros [key Hin]. exists (key, d). by rewrite elem_of_map_to_list.
Qed.

(** X16.  The activity of a group is its ten busiest records: at most ten
    records of the table, each with the id of the group, in descending
    order of count, a count that is missing counting as [0]; a record of
    the group that is not among them has no higher count than any of
    them, and there are ten then.  The list is there whenever every
    record of the table is an object whose count is a number or
    missing. *)
Theorem group_activity_is_the_top_ten g st :
  ((∀ key d, table "activity" st !! key = Some d →
      JS.is_plain_object d = true ∧
      is_Some (JS.number_or_zero (JS.field d "count"))) →
   is_Some (getGroupActivity g st).1) ∧
  (∀ r, (getGroupActivity g st).1 = Some r →
     length r ≤ 10 ∧
     (∀ d, d ∈ r →
        JS.field d "groupId" = VStr g ∧
        ∃ key, table "activity" st !! key = Some d) ∧
     (∀ i j u v, i ≤ j → r !! i = Some u → r !! j = Some v →
        ∃ a b, JS.number_or_zero (JS.field u "count") = Some a ∧
               JS.number_or_zero (JS.field v "count") = Some b ∧ (b ≤ a)%Z) ∧
     (∀ key d, table "activity" st !! key = Some d →
        JS.field d "groupId" = VStr g →
        d ∈ r ∨
        (length r = 10 ∧
         ∀ v, v ∈ r →
           ∃ a b, JS.number_or_zero (JS.field v "count") = Some a ∧
                  JS.number_or_zero (JS.field d "count") = Some b ∧
                  (b ≤ a)%Z))).
Proof.
  rewrite getGroupActivity_result. unfold groupActivity. split.
  - intros Hrec.
    destruct (of_group_total g (map_to_list (table "activity" st)).*2) as [l Hl].
    { apply Forall_forall. intros d [key Hd]%elem_of_values.
      by apply (Hrec key d). }
    rewrite Hl. simpl. apply top_ten_total, Forall_forall.
    intros d Hd. rewrite (of_group_spec _ _ _ Hl) in Hd.
    apply list_elem_of_filter in Hd as [_ [key Hd]%elem_of_values].
    by apply (Hrec key d).
  - intros r Hr.
    destruct (of_group g (map_to_list (table "activity" st)).*2) as [l|] eqn:Hl;
      [|done].
    simpl in Hr. apply of_group_spec in Hl.
    apply top_ten_spec in Hr as (rest & Hperm & Hlen & Hsorted & Htop).
    assert (∀ d, d ∈ l ↔ JS.field d "groupId" = VStr g ∧
                         ∃ key, table "activity" st !! key = Some d) as Hmem.
    { intros d. by rewrite Hl, list_elem_of_filter, eq_string_eq, elem_of_values. }
    split; [lia|]. split; [|split; [done|]].
    + intros d Hd. apply Hmem. rewrite Hperm. apply elem_of_app. by left.
    + intros key d Hd Hg.
      assert (d ∈ l) as Hin by (apply Hmem; split; [done|by exists key]).
      rewrite Hperm in Hin. apply elem_of_app in Hin as [Hin|Hin]; [by left|].
      right. split.
      * rewrite Hperm, length_app in Hlen.
        destruct rest; [by apply elem_of_nil in Hin|].
        rewrite length_cons in Hlen. lia.
      * intros v Hv. by apply Htop.
Qed.

(* ------------------------------------------------------------------ *)
(** ** Spawns *)

Lemma find_open_spec sid entries : ∀ res,
  find_open sid entries = Some res →
  match res with
  | Some (k, d) =>
    (k, d) ∈ entries ∧ JS.field d "shortId" = VStr sid ∧
    JS.truthy (JS.field d "claimed") = false
  | None =>
    ∀ k d, (k, d) ∈ entries → JS.field d "shortId" = VStr sid →
           JS.truthy (JS.field d "claimed") = true
  end.
Proof.
  induction entries as [|[k d] entries IH]; intros res; simpl.
  - intros [= <-]. by intros k d ?%elem_of_nil.
  - destruct (field_of d "shortId") as [s|] eqn:Hs; [|done]. simpl.
    assert (s = JS.field d "shortId") as ->.
    { destruct d; simpl in *; congruence. }
    destruct (JS.eq_string (JS.field d "shortId") sid) eqn:Heq; simpl.
    + apply eq_string_eq in Heq.
      destruct (JS.truthy (JS.field d "claimed")) eqn:Hc; simpl.
      * intros Hres. specialize (IH res Hres).
        destruct res as [[k' d']|].
        -- destruct IH as (Hin & Hrest). split; [by right|done].
        -- intros k' d' [[= -> ->]|Hin]%elem_of_cons; [done|].
           by apply (IH k' d').
      * intros [= <-]. split; [by left|done].
    + apply eq_string_ne in Heq. intros Hres. specialize (IH res Hres).
      destruct res as [[k' d']|].
      * destruct IH as (Hin & Hrest). split; [by right|done].
      * intros k' d' [[= -> ->]|Hin]%elem_of_cons; [done|].
        by apply (IH k' d').
Qed.

Lemma find_open_total sid entries :
  Forall (λ e : string * value, JS.is_plain_object e.2 = true) entries →
  is_Some (find_open sid entries).
Proof.
  induction 1 as [|[k d] entries Hd _ IH]; [by eexists|].
  simpl in *. destruct d; try done. simpl.
  by destruct (JS.eq_string _ sid && negb _).
Qed.

Section spawns.

Variable toUpperCase : string → string.
Variable started : Z.

Lemma getSpawnByShortId_result sid st :
  (getSpawnByShortId toUpperCase sid st).1
  = spawnByShortId toUpperCase sid (map_to_list (table "spawns" st)).
Proof. unfold getSpawnByShortId, getAll. by rewrite loadTable_eq. Qed.

Lemma id_of_entry k (m : gmap string value) :
  JS.field (JS.spread2 (VObj {["id" := VStr k]}) (VObj m)) "id"
  = default (VStr k) (m !! "id").
Proof.
  simpl. unfold JS.prop. destruct (m !! "id") as [x|] eqn:Hx.
  - by rewrite (lookup_union_Some_l m _ _ x Hx).
  - by rewrite lookup_union_r, lookup_singleton_eq.
Qed.

Lemma spawnByShortId_spec sid (db : gmap string value) entries v :
  entries ≡ₚ map_to_list db →
  spawnByShortId toUpperCase sid entries = Some v →
  (v = VNull ∧
   ∀ k d, db !! k = Some d →
          JS.field d "shortId" = VStr (toUpperCase sid) →
          JS.truthy (JS.field d "claimed") = true) ∨
  (∃ k d, db !! k = Some d ∧
          JS.field d "shortId" = VStr (toUpperCase sid) ∧
          JS.truthy (JS.field d "claimed") = false ∧
          v = JS.spread2 (VObj {["id" := VStr k]}) d ∧
          ∀ m, d = VObj m → JS.field v "id" = default (VStr k) (m !! "id")).
Proof.
  intros Hentries.
  assert (∀ k d, (k, d) ∈ entries ↔ db !! k = Some d) as Hmem.
  { intros k d. rewrite Hentries. apply elem_of_map_to_list. }
  unfold spawnByShortId.
  destruct (find_open _ _) as [res|] eqn:Hres; [|done].
  simpl. intros [= <-]. apply find_open_spec in Hres.
  destruct res as [[k d]|].
  - right. destruct Hres as (Hin%Hmem & Hsid & Hopen).
    exists k, d. split; [done|]. split; [done|]. split; [done|].
    split; [done|]. intros m ->. apply id_of_entry.
  - left. split; [done|]. intros k d Hin%Hmem.
    by apply (Hres k d).
Qed.

(** X17.  [getSpawnByShortId] finds an open spawn with the short id in
    upper case, in whatever order the table is enumerated: its result is
    a record of the table whose [shortId] is that string and whose
    [claimed] is not set, or [null] when every record with that short id
    is claimed.  The result has the key of the record under [id] only
    when the record has no [id] of its own: the one of the record wins.
    After [claimSpawn] of a key the record under that key is never the
    one found, whatever the short id asked for, and the other records
    are found as they were. *)
Theorem claimed_spawn_is_not_found sid st entries :
  entries ≡ₚ Object_entries (table "spawns" st) →
  (getSpawnByShortId toUpperCase sid st).1
    = spawnByShortId toUpperCase sid (Object_entries (table "spawns" st)) ∧
  ((∀ k d, table "spawns" st !! k = Some d → JS.is_plain_object d = true) →
   is_Some (spawnByShortId toUpperCase sid entries)) ∧
  (∀ v, spawnByShortId toUpperCase sid entries = Some v →
     (v = VNull ∧
      ∀ k d, table "spawns" st !! k = Some d →
             JS.field d "shortId" = VStr (toUpperCase sid) →
             JS.truthy (JS.field d "claimed") = true) ∨
     (∃ k d, table "spawns" st !! k = Some d ∧
             JS.field d "shortId" = VStr (toUpperCase sid) ∧
             JS.truthy (JS.field d "claimed") = false ∧
             v = JS.spread2 (VObj {["id" := VStr k]}) d ∧
             ∀ m, d = VObj m →
                  JS.field v "id" = default (VStr k) (m !! "id"))) ∧
  (∀ id entries' v,
     entries' ≡ₚ Object_entries (table "spawns" (claimSpawn started id st)) →
     spawnByShortId toUpperCase sid entries' = Some v →
     JS.truthy (JS.field (get "spawns" id (claimSpawn started id st)).1 "claimed")
     = true ∧
     (v = VNull ∨
      ∃ k d, k ≠ id ∧ table "spawns" st !! k = Some d ∧
             JS.field d "shortId" = VStr (toUpperCase sid) ∧
             JS.truthy (JS.field d "claimed") = false ∧
             v = JS.spread2 (VObj {["id" := VStr k]}) d)).
Proof.
  intros Hentries.
  split; [apply getSpawnByShortId_result|].
  split; [|split; [intros v; by apply spawnByShortId_spec|]].
  { intros Hobj.
    destruct (find_open_total (toUpperCase sid) entries) as [res Hres].
    - apply Forall_forall. intros [k d] Hin. rewrite Hentries in Hin.
      apply elem_of_map_to_list in Hin. by apply (Hobj k d).
    - unfold spawnByShortId. rewrite Hres. by eexists. }
  intros id entries' v Hentries' Hv.
  assert (JS.truthy
            (JS.field (get "spawns" id (claimSpawn started id st)).1 "claimed")
          = true) as Hclaimed.
  { unfold claimSpawn. rewrite get_set_object.
    by rewrite (field_patch_in _ _ "claimed" (VBool true))
      by apply lookup_insert_eq. }
  split; [done|].
  apply (spawnByShortId_spec _ _ _ _ Hentries') in Hv
    as [[-> _]|(k & d & Hd & Hsid & Hopen & -> & _)]; [by left|].
  right. exists k, d.
  destruct (decide (k = id)) as [->|Hne].
  - rewrite (get_present _ _ _ _ Hd) in Hclaimed.
    assert (JS.field (JS.nullish d VNull) "claimed" = JS.field d "claimed") as Heq
      by by destruct d.
    congruence.
  - split; [done|]. unfold claimSpawn in Hd.
    rewrite table_set, lookup_insert_ne in Hd by done. done.
Qed.

End spawns.

(* ------------------------------------------------------------------ *)
(** ** Groups and AFK *)

Lemma getGroup_result g st :
  (getGroup g st).1 = JS.or (get "groups" g st).1 (VObj ∅).
Proof. unfold getGroup. by destruct (get "groups" g st). Qed.


Section afk.

Variable started : Z.


End afk.
End Store.

(* ------------------------------------------------------------------ *)
(** ** Worked examples *)



(** C9 at a key that was never written and that is the name of a member
    of [Object.prototype]: [get] on the key [constructor] of an empty
    table returns the function that every object inherits under that
    name, where the absent marker [null] is due, as it is returned for
    the key [u1].  The call arms no timeout and writes nothing. *)
Theorem get_returns_inherited_member :
  let st := boot ∅ in
  table example_dir "users" st !! "constructor" = None ∧
  (get example_dir "users" "constructor" st).1 = VFun "constructor" ∧
  (get example_dir "users" "constructor" st).1 ≠ VNull ∧
  (get example_dir "users" "u1" st).1 = VNull ∧
  timers (get example_dir "users" "constructor" st).2 = ∅ ∧
  writes (get example_dir "users" "constructor" st).2 = [].
Proof. by repeat split. Qed.

(** C10 at the key [constructor]: after [set(T, K, null)] the key is in
    the mapping of [getAll] with value [null] and [get] returns [null],
    but for the key never written [get] returns the inherited function,
    so that [get] alone tells the record [null] from no record. *)
Theorem null_record_is_told_from_absent :
  let st := boot ∅ in
  let st' := set example_dir "users" "constructor" VNull st in
  (getAll example_dir "users" st').1 !! "constructor" = Some VNull ∧
  (get example_dir "users" "constructor" st').1 = VNull ∧
  (getAll example_dir "users" st).1 !! "constructor" = None ∧
  (get example_dir "users" "constructor" st).1 = VFun "constructor" ∧
  (get example_dir "users" "constructor" st').1
    ≠ (get example_dir "users" "constructor" st).1.
Proof. by repeat split. Qed.

(** C5 at the table name [constructor], with nothing in the cache and no
    file: [loadTable] finds what [cache] inherits under that name and
    returns that function, not a mapping, and caches nothing.  For the
    name [users] it returns the empty mapping and caches it, without a
    file as with a file that does not parse; a file that holds the JSON
    document [null] is parsed, and [null] is what it returns. *)
Theorem loadTable_returns_inherited_member :
  loadTable_raw example_dir "constructor" ∅ ∅ = (VFun "constructor", ∅) ∧
  loadTable_raw example_dir "users" ∅ ∅ = (VObj ∅, {["users" := VObj ∅]}) ∧
  loadTable_raw example_dir "users" ∅
    {[dbFile example_dir "users" := JSON.Malformed "{oops"]}
    = (VObj ∅, {["users" := VObj ∅]}) ∧
  loadTable_raw example_dir "users" ∅
    {[dbFile example_dir "users" := JSON.Document JNull]}
    = (VNull, {["users" := VNull]}).
Proof. by repeat split. Qed.



(** C4: two table names with the same file. *)
Lemma dbFile_not_injective :
  "users" ≠ "./users" ∧ dbFile example_dir "users" = dbFile example_dir "./users".
Proof. split; [discriminate|reflexivity]. Qed.

(** C4 on two names without a separator. *)
Lemma dbFile_injective_on_plain_names_example :
  path.has_sep "users" = false ∧ path.has_sep "groups" = false ∧
  "users" ≠ "groups" ∧
  dbFile example_dir "users" ≠ dbFile example_dir "groups".
Proof.
  split; [reflexivity|]. split; [reflexivity|]. split; [discriminate|].
  apply (dbFile_injective_on_plain_names example_dir "users" "groups");
    [reflexivity|reflexivity|discriminate].
Defined.










(** A user with a balance of 5 and 2 of stardust who gets 10 more of
    either. *)
Lemma balance_and_stardust_are_separate_example :
  let st := set example_dir "users" "u1"
              (VObj (<["balance" := VNum 5]> {["stardust" := VNum 2]})) (boot ∅) in
  JS.has_indices (get example_dir "users" "u1" st).1 = false ∧
  (∃ st', addBalance example_dir "u1" (VNum 10) st = Some st' ∧
          (getBalance example_dir "u1" st').1 = VNum 15 ∧
          (getStardust example_dir "u1" st').1 = VNum 2) ∧
  (∃ st', addStardust example_dir "u1" (VNum 10) st = Some st' ∧
          (getStardust example_dir "u1" st').1 = VNum 12 ∧
          (getBalance example_dir "u1" st').1 = VNum 5).
Proof.
  intros st.
  assert (JS.has_indices (get example_dir "users" "u1" st).1 = false) as Hrec
    by reflexivity.
  split; [exact Hrec|]. split.
  - eexists. split; [reflexivity|]. split; [reflexivity|].
    exact (proj1 (proj1 (balance_and_stardust_are_separate example_dir "u1"
                           (VNum 10) st _ Hrec) eq_refl)).
  - eexists. split; [reflexivity|]. split; [reflexivity|].
    exact (proj1 (proj2 (balance_and_stardust_are_separate example_dir "u1"
                           (VNum 10) st _ Hrec) eq_refl)).
Defined.


(** Two users of one group. *)
Lemma warns_are_per_group_and_user_example :
  JS.includes "_" "g1" = false ∧
  ("g1", "u1") ≠ ("g1", "u2") ∧
  pair_key "g1" "u1" ≠ pair_key "g1" "u2" ∧
  (getWarns example_dir "u2" "g1"
     (resetWarns example_dir "u1" "g1" (boot ∅))).1
  = (getWarns example_dir "u2" "g1" (boot ∅)).1.
Proof.
  assert (JS.includes "_" "g1" = false) as Hg by reflexivity.
  assert (("g1", "u1") ≠ ("g1", "u2")) as Hne by discriminate.
  split; [exact Hg|]. split; [exact Hne|]. split.
  - exact (proj1 (warns_are_per_group_and_user example_dir "u1" "g1" "u2" "g1"
                    (boot ∅) Hg Hg Hne)).
  - exact (proj2 (proj2 (warns_are_per_group_and_user example_dir "u1" "g1" "u2"
                           "g1" (boot ∅) Hg Hg Hne))).
Defined.


(** A word added to the empty list of a group, in capitals. *)
Lemma addBlacklist_adds_once_example :
  (getBlacklist example_dir "g1" (boot ∅)).1 = VArr [] ∧
  ascii_toLowerCase "SPAM" = ascii_toLowerCase "Spam" ∧
  ∃ st', addBlacklist example_dir ascii_toLowerCase "g1" "Spam" (boot ∅)
         = Some st' ∧
         (getBlacklist example_dir "g1" st').1 = VArr [VStr "spam"] ∧
         ∃ st'', addBlacklist example_dir ascii_toLowerCase "g1" "SPAM" st'
                 = Some st'' ∧
                 (getBlacklist example_dir "g1" st'').1 = VArr [VStr "spam"].
Proof.
  assert ((getBlacklist example_dir "g1" (boot ∅)).1 = VArr []) as Hws
    by reflexivity.
  assert (ascii_toLowerCase "SPAM" = ascii_toLowerCase "Spam") as Hcase
    by reflexivity.
  split; [exact Hws|]. split; [exact Hcase|].
  destruct (addBlacklist_adds_once example_dir ascii_toLowerCase "g1" "Spam" []
              (boot ∅) Hws (Forall_nil_2 _))
    as (ws' & st' & Hrun & Hget & _ & _ & _ & Happ & Hagain).
  exists st'. split; [exact Hrun|].
  assert (ws' = [VStr "spam"]) as ->.
  { apply Happ; [constructor|]. by intros ?%elem_of_nil. }
  split; [exact Hget|]. exact (Hagain "SPAM" Hcase).
Defined.

(** A word taken out of a list of two. *)
Lemma removeBlacklist_removes_example :
  let st := set example_dir "blacklist" "g1"
              (VObj {["words" := VArr [VStr "spam"; VStr "ads"]]}) (boot ∅) in
  (getBlacklist example_dir "g1" st).1 = VArr [VStr "spam"; VStr "ads"] ∧
  ∃ ws' st', removeBlacklist example_dir ascii_toLowerCase "g1" "Spam" st
             = Some st' ∧
             (getBlacklist example_dir "g1" st').1 = VArr ws' ∧
             (VStr "spam" ∉ ws') ∧
             sublist ws' [VStr "spam"; VStr "ads"].
Proof.
  intros st.
  assert ((getBlacklist example_dir "g1" st).1 = VArr [VStr "spam"; VStr "ads"])
    as Hws by reflexivity.
  split; [exact Hws|].
  destruct (proj1 (removeBlacklist_removes example_dir ascii_toLowerCase "g1"
                     "Spam" _ st Hws))
    as (ws' & st' & Hrun & Hget & Hnotin & _ & Hsub).
  by exists ws', st'.
Defined.

(** A number added to the empty sudo list, and taken out again. *)
Lemma sudo_list_is_a_set_example :
  (getSudoList example_dir (boot ∅)).1 = VArr [] ∧
  JS.is_primitive (VStr "2348012345678") = true ∧
  ∃ st', addSudo example_dir (VStr "2348012345678") (boot ∅) = Some st' ∧
         (getSudoList example_dir st').1 = VArr [VStr "2348012345678"] ∧
         ∃ ns'' st'', removeSudo example_dir (VStr "2348012345678") st'
                      = Some st'' ∧
                      (getSudoList example_dir st'').1 = VArr ns'' ∧
                      VStr "2348012345678" ∉ ns''.
Proof.
  assert ((getSudoList example_dir (boot ∅)).1 = VArr []) as Hns by reflexivity.
  assert (JS.is_primitive (VStr "2348012345678") = true) as Hp by reflexivity.
  split; [exact Hns|]. split; [exact Hp|].
  destruct (proj1 (sudo_list_is_a_set example_dir (VStr "2348012345678") []
                     (boot ∅) Hns Hp) (Forall_nil_2 _))
    as (ns' & st' & Hrun & Hget & _ & _ & _ & Happ & Hgone).
  exists st'. split; [exact Hrun|].
  assert (ns' = [VStr "2348012345678"]) as ->.
  { apply Happ; [constructor|]. by intros ?%elem_of_nil. }
  split; [exact Hget|]. exact Hgone.
Defined.

(** The same card twice for a user without a record. *)
Lemma addCard_appends_example :
  (getCards example_dir "u1" (boot ∅)).1 = VArr [] ∧
  ∃ st', addCards example_dir "u1" [VStr "ace"; VStr "ace"] (boot ∅) = Some st' ∧
         (getCards example_dir "u1" st').1 = VArr [VStr "ace"; VStr "ace"].
Proof.
  assert ((getCards example_dir "u1" (boot ∅)).1 = VArr []) as Hcs
    by reflexivity.
  split; [exact Hcs|].
  exact (proj2 (addCard_appends example_dir "u1" VNull [] (boot ∅) Hcs)
           eq_refl [VStr "ace"; VStr "ace"]).
Defined.


(** Three users, of whom two are registered and one has a [jid] of its
    own, enumerated in the one order and in the other. *)
Lemma richlist_is_the_top_ten_example :
  let user := λ (registered : bool) (balance : Z),
    VObj (<["registered" := VBool registered]> {["balance" := VNum balance]}) in
  let st := set example_dir "users" "u3" (user false 100%Z)
              (set example_dir "users" "u2"
                 (VObj (<["jid" := VStr "own"]>
                          (<["registered" := VBool true]>
                             {["balance" := VNum 9]})))
                 (set example_dir "users" "u1" (user true 5%Z) (boot ∅))) in
  let entries := reverse (Object_entries (table example_dir "users" st)) in
  entries ≡ₚ Object_entries (table example_dir "users" st) ∧
  ∃ r, richlist entries = Some r ∧
       richlist (Object_entries (table example_dir "users" st)) = Some r ∧
       (getRichlist example_dir "g1" st).1 = Some r ∧
       (λ u, JS.field u "jid") <$> r !! 0 = Some (VStr "own") ∧
       (λ u, JS.field u "jid") <$> r !! 1 = Some (VStr "u1") ∧
       length r ≤ 10.
Proof.
  intros user st entries.
  assert (entries ≡ₚ Object_entries (table example_dir "users" st)) as Hperm
    by apply reverse_Permutation.
  split; [exact Hperm|]. eexists.
  assert (richlist entries = Some _) as Hr by (vm_compute; reflexivity).
  pose proof (richlist_is_the_top_ten example_dir st entries Hperm)
    as (Hgroup & Hall & _ & Hspec).
  split; [exact Hr|]. split; [reflexivity|].
  split; [rewrite (Hgroup "g1"), Hall; reflexivity|].
  split; [reflexivity|]. split; [reflexivity|].
  exact (proj1 (Hspec _ Hr)).
Defined.


(** Two users of one group and one of another. *)
Lemma group_activity_is_the_top_ten_example :
  let record := λ (jid g : string) (count : Z),
    VObj (<["jid" := VStr jid]> (<["groupId" := VStr g]> {["count" := VNum count]})) in
  let st := set example_dir "activity" "g2_u1" (record "u1" "g2" 50%Z)
              (set example_dir "activity" "g1_u2" (record "u2" "g1" 7%Z)
                 (set example_dir "activity" "g1_u1" (record "u1" "g1" 3%Z)
                    (boot ∅))) in
  ∃ r, (getGroupActivity example_dir "g1" st).1 = Some r ∧
       r = [record "u2" "g1" 7%Z; record "u1" "g1" 3%Z] ∧
       length r ≤ 10.
Proof.
  intros record st. eexists.
  assert ((getGroupActivity example_dir "g1" st).1 = Some _) as Hr
    by (vm_compute; reflexivity).
  split; [exact Hr|]. split; [reflexivity|].
  exact (proj1 (proj2 (group_activity_is_the_top_ten example_dir "g1" st) _ Hr)).
Defined.

(** A spawn that is found by its short id in small letters, with its own
    [id] when it has one, and is not found once it is claimed. *)
Lemma claimed_spawn_is_not_found_example :
  let st := setSpawn example_dir "s1" (VObj {["shortId" := VStr "AB12"]}) (boot ∅) in
  let st' := setSpawn example_dir "s2"
               (VObj (<["id" := VStr "own"]> {["shortId" := VStr "CD34"]})) st in
  let claimed := claimSpawn example_dir example_started "s1" st in
  let entries :=
    reverse (Object_entries (table example_dir "spawns" claimed)) in
  entries ≡ₚ Object_entries (table example_dir "spawns" claimed) ∧
  (getSpawnByShortId example_dir ascii_toUpperCase "ab12" st).1
  = Some (VObj (<["id" := VStr "s1"]> {["shortId" := VStr "AB12"]})) ∧
  (getSpawnByShortId example_dir ascii_toUpperCase "cd34" st').1
  = Some (VObj (<["id" := VStr "own"]> {["shortId" := VStr "CD34"]})) ∧
  spawnByShortId ascii_toUpperCase "ab12" entries = Some VNull ∧
  JS.truthy (JS.field (get example_dir "spawns" "s1" claimed).1 "claimed") = true.
Proof.
  intros st st' claimed entries.
  assert (entries ≡ₚ Object_entries (table example_dir "spawns" claimed))
    as Hperm by apply reverse_Permutation.
  assert (spawnByShortId ascii_toUpperCase "ab12" entries = Some VNull)
    as Hgone by (vm_compute; reflexivity).
  split; [exact Hperm|].
  split; [vm_compute; reflexivity|]. split; [vm_compute; reflexivity|].
  split; [exact Hgone|].
  exact (proj1 (proj2 (proj2 (proj2
           (claimed_spawn_is_not_found example_dir ascii_toUpperCase
              example_started "ab12" st
              (Object_entries (table example_dir "spawns" st))
              (Permutation_refl _))))
           "s1" entries VNull Hperm Hgone)).
Defined.


